(** * Function.memoize polyfill: a shallow embedding of src/polyfill.js

    The development follows the source top-down: JavaScript values, weak
    handles and garbage collection, the cache tree ([createNode], [getNode],
    [getValueAt], [setValueAt]), option parsing and the memoized wrapper,
    and the memory-pressure callback with [flushCaches].

    Modelling conventions.
    - Objects and functions are represented by their identity (a number);
      numbers are integers plus [VNaN] (no claim here depends on fractions).
    - The set [reclaimed] holds the identities the garbage collector has
      freed; a [WeakRef] to such an object dereferences to [undefined].
    - Thrown errors are explicit: every operation that can throw returns an
      [outcome].
    - The memoized function [fn] is a pure function from an argument list
      to an [outcome].  Function objects passed as options are values
      [VFun f]; a table gives what calling them does.  A comparator is a
      pure total predicate (its result coerced to a boolean).
    - The wrapper spreads its [keys] twice, for the lookup and for the
      insertion; what [select] returned is iterated both times, and the
      second iteration may give other elements than the first.  An
      iteration that has given its elements does not throw when repeated.
    - [registry.register] only schedules [pruneNodeCache] for a later idle
      period and changes nothing a call can see; it is left out of
      [setValueAt]. *)

From Stdlib Require Import ZArith.
From stdpp Require Import base option list gmap strings.

#[local] Set Warnings "-clear-no-such-hyp".

Local Open Scope string_scope.
Local Open Scope Z_scope.
Local Open Scope list_scope.

(** ** JavaScript values *)

Inductive val :=
| VUndefined
| VNull
| VBool (b : bool)
| VNum (n : Z)
| VNaN
| VStr (s : string)
| VObj (o : nat)      (* reference to an object; [o] is its identity *)
| VFun (f : nat).     (* reference to a function object *)

#[global] Instance val_eq_dec : EqDecision val.
Proof. solve_decision. Defined.

Definition typeof (v : val) : string :=
  match v with
  | VUndefined => "undefined"
  | VNull => "object"
  | VBool _ => "boolean"
  | VNum _ | VNaN => "number"
  | VStr _ => "string"
  | VObj _ => "object"
  | VFun _ => "function"
  end.

(** The language's notion of a primitive value: everything that is not an
    object, functions being objects. *)
Definition isPrimitive (v : val) : bool :=
  match v with
  | VObj _ | VFun _ => false
  | _ => true
  end.

(** [a === b] *)
Definition strictEquals (a b : val) : bool :=
  match a, b with
  | VNaN, _ | _, VNaN => false
  | _, _ => bool_decide (a = b)
  end.

(** SameValueZero, the key equality of [Map]. *)
Definition sameValueZero (a b : val) : bool := bool_decide (a = b).

(** ** Errors *)

Inductive exn :=
| TypeError (msg : string)
| Thrown (v : val).

Inductive outcome (A : Type) :=
| Returns (a : A)
| Throws (e : exn).
Arguments Returns {A} a.
Arguments Throws {A} e.

#[global] Instance outcome_ret : MRet outcome := fun A a => Returns a.
#[global] Instance outcome_bind : MBind outcome := fun A B f m =>
  match m with
  | Returns a => f a
  | Throws e => Throws e
  end.

Definition jsfun := list val -> outcome val.

(** ** Weak handles and the cache tree *)

(** [new WeakRef(o).deref()] once the collector has freed [reclaimed]. *)
Definition deref (reclaimed : gset nat) (o : nat) : val :=
  if decide (o ∈ reclaimed) then VUndefined else VObj o.

(** A key of a node's [Map]: a value stored as it is, or a [WeakRef]. *)
Inductive mapkey :=
| KVal (v : val)
| KWeak (o : nat).

(** A node's [value] field. *)
Inductive slot :=
| NO_VALUE
| Direct (v : val)
| Weak (o : nat).

#[warnings="-register-all"]
Inductive node := Node { cache : list (mapkey * node); value : slot }.

Definition isNonNullObject (o : val) : bool :=
  negb (bool_decide (o = VNull)) && String.eqb (typeof o) "object".

Definition createNode : node := {| cache := []; value := NO_VALUE |}.

(** [isWeakRef(k) ? k.deref() : k] *)
Definition unwrapKey (reclaimed : gset nat) (k : mapkey) : val :=
  match k with
  | KWeak o => deref reclaimed o
  | KVal v => v
  end.

(** [isNonNullObject(key) ? new WeakRef(key) : key].  Only [VObj] passes the
    test, so the other branch of the inner match is never taken. *)
Definition boxKey (key : val) : mapkey :=
  if isNonNullObject key
  then match key with VObj o => KWeak o | _ => KVal key end
  else KVal key.

(** [isNonNullObject(value) ? new WeakRef(value) : value] *)
Definition boxValue (v : val) : slot :=
  if isNonNullObject v
  then match v with VObj o => Weak o | _ => Direct v end
  else Direct v.

(** The unboxing at the end of [getValueAt]; [None] stands for the
    [NO_VALUE] sentinel. *)
Definition unboxValue (reclaimed : gset nat) (s : slot) : option val :=
  match s with
  | NO_VALUE => None
  | Direct v => Some v
  | Weak o => Some (deref reclaimed o)
  end.

(** Key equality of [Map.prototype.set]: a freshly allocated [WeakRef] is a
    new object and equals no existing key. *)
Definition sameKey (existing new : mapkey) : bool :=
  match existing, new with
  | KVal a, KVal b => sameValueZero a b
  | _, _ => false
  end.

(** [cache.set(key, nextNode)]: overwrite in place or append. *)
Fixpoint mapSet (entries : list (mapkey * node)) (key : mapkey) (nextNode : node)
  : list (mapkey * node) :=
  match entries with
  | [] => [(key, nextNode)]
  | (k, n) :: rest =>
      if sameKey k key then (k, nextNode) :: rest
      else (k, n) :: mapSet rest key nextNode
  end.

Section Tree.
Variable reclaimed : gset nat.
Variable compare : val -> val -> bool.

(** The loop of [getNode] over [node.cache.entries()]. *)
Fixpoint getNodeIn (entries : list (mapkey * node)) (key : val) : option node :=
  match entries with
  | [] => None
  | (k, nextNode) :: rest =>
      let _key := unwrapKey reclaimed k in
      if compare _key key then Some nextNode else getNodeIn rest key
  end.

Definition getNode (n : node) (key : val) : option node :=
  getNodeIn (cache n) key.

(** The node returned by [getNode] is the object held by the map, so a
    mutation of it is a replacement of that entry's node. *)
Fixpoint replaceNode (entries : list (mapkey * node)) (key : val) (n' : node)
  : list (mapkey * node) :=
  match entries with
  | [] => []
  | (k, nextNode) :: rest =>
      if compare (unwrapKey reclaimed k) key then (k, n') :: rest
      else (k, nextNode) :: replaceNode rest key n'
  end.

Fixpoint getValueAt (n : node) (keys : list val) : option val :=
  match keys with
  | [] => unboxValue reclaimed (value n)
  | key :: keys' =>
      match getNode n key with
      | None => None
      | Some currentNode => getValueAt currentNode keys'
      end
  end.

Fixpoint setValueAt (n : node) (v : val) (keys : list val) : node :=
  match keys with
  | [] => {| cache := cache n; value := boxValue v |}
  | key :: keys' =>
      match getNode n key with
      | Some nextNode =>
          {| cache := replaceNode (cache n) key (setValueAt nextNode v keys');
             value := value n |}
      | None =>
          {| cache := mapSet (cache n) (boxKey key)
                        (setValueAt createNode v keys');
             value := value n |}
      end
  end.

(** [pruneNodeCache] on a map that is still alive. *)
Definition pruneNodeCache (entries : list (mapkey * node)) : list (mapkey * node) :=
  List.filter (fun e => match e.1 with
                        | KWeak o => negb (bool_decide (o ∈ reclaimed))
                        | KVal _ => true
                        end) entries.
End Tree.

Arguments getNodeIn reclaimed compare entries key : assert.
Arguments getNode reclaimed compare n key : assert.
Arguments getValueAt reclaimed compare n keys : assert.
Arguments setValueAt reclaimed compare n v keys : assert.

(** [referenitalEquality] (the source's spelling), the default comparator. *)
Definition referenitalEquality (a b : val) : bool := strictEquals a b.

(** ** The memoized wrapper *)

(** The recognised properties of the [opts] object; a property that is not
    there reads as [undefined]. *)
Record options := {
  opt_select : val;
  opt_hash : val;
  opt_compare : val
}.

Definition absent : val := VUndefined.

(** What calling a function object does, by the identity of the function:
    [functionBody f] for a call with an argument list, [comparatorBody f]
    for a call on two keys with the result coerced to a boolean. *)
Record functions := {
  functionBody : nat -> jsfun;
  comparatorBody : nat -> val -> val -> bool
}.

(** [opts && typeof opts.p === "function" ? opts.p : null]; [opts] is [None]
    when the second argument is missing or falsy.  The result is the
    identity of the function. *)
Definition functionOrNull (opts : option options) (p : options -> val)
  : option nat :=
  match opts with
  | None => None
  | Some o =>
      if String.eqb (typeof (p o)) "function"
      then match p o with VFun f => Some f | _ => None end
      else None
  end.

(** The variables a wrapper closes over.  [rootNode] is the identity of the
    wrapper's root: its position in the store of roots of [world] below. *)
Record wrapper := {
  fn : jsfun;
  hash : option jsfun;
  select : option jsfun;
  compare : val -> val -> bool;
  rootNode : nat
}.

(** What one call of the wrapper does: what it returns or throws, the root
    afterwards, and the argument lists [fn] was invoked with. *)
Record callResult := {
  returned : outcome val;
  rootAfter : node;
  fnCalls : list (list val)
}.

Definition constAssignment : exn := TypeError "Assignment to constant variable.".

(** The value of the wrapper's [keys] variable: an array literal or the
    [arguments] object, whose elements every spread gives again, or what
    [select] returned. *)
Inductive keysValue :=
| KeysArray (elements : list val)
| KeysSelected (iterable : val).

Section Wrapper.
(** The iteration protocol behind the spread of [select]'s result.
    [iterate v] is the first spread of [v]: its elements, or the
    [TypeError] for a value that is not iterable.  [iterateAgain v] is a
    second spread of the same object after the first one ended: the same
    elements for an array or another repeatable iterable, none for an
    iterator or a generator, which is exhausted. *)
Variable iterate : val -> outcome (list val).
Variable iterateAgain : val -> list val.

(** [const keys = hash && select ? ... : arguments] *)
Definition resolveKeys (w : wrapper) (arguments : list val)
  : outcome keysValue :=
  match hash w, select w with
  | Some hash, Some select =>
      selected ← select arguments; key ← hash [selected];
      mret (KeysArray [key])
  | Some hash, None => key ← hash arguments; mret (KeysArray [key])
  | None, Some select =>
      selected ← select arguments; mret (KeysSelected selected)
  | None, None => mret (KeysArray arguments)
  end.

(** [...keys] in the call of [getValueAt] *)
Definition spreadKeys (keys : keysValue) : outcome (list val) :=
  match keys with
  | KeysArray elements => Returns elements
  | KeysSelected iterable => iterate iterable
  end.

(** [...keys] in the call of [setValueAt], after the spread above *)
Definition respreadKeys (keys : keysValue) : list val :=
  match keys with
  | KeysArray elements => elements
  | KeysSelected iterable => iterateAgain iterable
  end.

(** The key path of the lookup. *)
Definition keyPath (w : wrapper) (arguments : list val) : outcome (list val) :=
  keys ← resolveKeys w arguments; spreadKeys keys.

(** The key path of the insertion; the default is never used, an insertion
    follows a lookup. *)
Definition insertPath (w : wrapper) (arguments : list val) : list val :=
  match resolveKeys w arguments with
  | Returns keys => respreadKeys keys
  | Throws _ => []
  end.

Definition wrappedFn (w : wrapper) (isSystemMemoryConstrained : bool)
    (reclaimed : gset nat) (root : node) (arguments : list val) : callResult :=
  match resolveKeys w arguments with
  | Throws e => {| returned := Throws e; rootAfter := root; fnCalls := [] |}
  | Returns keys =>
      match spreadKeys keys with
      | Throws e =>
          {| returned := Throws e; rootAfter := root; fnCalls := [] |}
      | Returns path =>
          match getValueAt reclaimed (compare w) root path with
          | Some v =>
              {| returned := Returns v; rootAfter := root; fnCalls := [] |}
          | None =>
              match fn w arguments with
              | Throws e =>
                  {| returned := Throws e; rootAfter := root;
                     fnCalls := [arguments] |}
              | Returns v =>
                  if isSystemMemoryConstrained
                  then (* rootNode = createNode(): rootNode is a const *)
                    {| returned := Throws constAssignment; rootAfter := root;
                       fnCalls := [arguments] |}
                  else
                    {| returned := Returns v;
                       rootAfter := setValueAt reclaimed (compare w) root v
                                      (respreadKeys keys);
                       fnCalls := [arguments] |}
              end
          end
      end
  end.
End Wrapper.

(** ** Process-wide state *)

(** [cacheInstances] is the set of weak handles to the roots, in insertion
    order; an entry is [None] once its root has been reclaimed, and holds
    the root's current contents otherwise. *)
Record world := {
  isSystemMemoryConstrained : bool;
  cacheInstances : list (option node);
  reclaimed : gset nat
}.

Definition initialWorld : world :=
  {| isSystemMemoryConstrained := false; cacheInstances := []; reclaimed := ∅ |}.

(** [Function.memoize(fn, opts)] *)
Definition memoize (F : functions) (f : jsfun) (opts : option options)
    (w : world) : wrapper * world :=
  ({| fn := f;
      hash := functionBody F <$> functionOrNull opts opt_hash;
      select := functionBody F <$> functionOrNull opts opt_select;
      compare := default referenitalEquality
                   (comparatorBody F <$> functionOrNull opts opt_compare);
      rootNode := length (cacheInstances w) |},
   {| isSystemMemoryConstrained := isSystemMemoryConstrained w;
      cacheInstances := cacheInstances w ++ [Some createNode];
      reclaimed := reclaimed w |}).

(** The root a wrapper closes over; a wrapper that can still be called keeps
    its root reachable, so the default is never used. *)
Definition rootOf (wr : wrapper) (w : world) : node :=
  default createNode (mjoin (cacheInstances w !! rootNode wr)).

(** A call of the wrapper in the process. *)
Definition callWrapped (iterate : val -> outcome (list val))
    (iterateAgain : val -> list val) (wr : wrapper)
    (arguments : list val) (w : world) : callResult * world :=
  let r := wrappedFn iterate iterateAgain wr (isSystemMemoryConstrained w)
             (reclaimed w) (rootOf wr w) arguments in
  (r, {| isSystemMemoryConstrained := isSystemMemoryConstrained w;
         cacheInstances := <[rootNode wr := Some (rootAfter r)]> (cacheInstances w);
         reclaimed := reclaimed w |}).

(** The body of [flushCaches]'s [forEach]: for a reclaimed root,
    [cacheInstances.delete(undefined)] removes nothing; for a live one, the
    assignment to the const [cacheInstance] throws. *)
Fixpoint flushEach (instances : list (option node)) : outcome unit :=
  match instances with
  | [] => Returns tt
  | wrappedCacheInstance :: rest =>
      match wrappedCacheInstance with
      | None => flushEach rest
      | Some cacheInstance => Throws constAssignment
      end
  end.

Definition flushCaches (w : world) : outcome unit * world :=
  (flushEach (cacheInstances w), w).

Record MemoryInfo := { jsHeapSizeLimit : Z; usedJSHeapSize : Z }.

(** [usedJSHeapSize / jsHeapSizeLimit >= 0.8] on byte counts: a division by
    zero gives [Infinity] or [NaN]; otherwise the comparison of the quotient
    with 0.8 is the comparison of [5 * used] with [4 * limit]. *)
Definition ratioAtLeast80 (used limit : Z) : bool :=
  if (limit =? 0)%Z then (0 <? used)%Z
  else if (0 <? limit)%Z then (4 * limit <=? 5 * used)%Z
  else (5 * used <=? 4 * limit)%Z.

(** The callback given to [MemoryObserver]; a missing sample reads both
    fields as [undefined] and the comparison is false. *)
Definition memoryCallback (sample : option MemoryInfo) (w : world)
  : outcome unit * world :=
  let shouldBeConstrained :=
    match sample with
    | Some m => ratioAtLeast80 (usedJSHeapSize m) (jsHeapSizeLimit m)
    | None => false
    end in
  let setMode (w : world) :=
    {| isSystemMemoryConstrained := shouldBeConstrained;
       cacheInstances := cacheInstances w;
       reclaimed := reclaimed w |} in
  if shouldBeConstrained && negb (isSystemMemoryConstrained w)
  then match flushCaches w with
       | (Throws e, w') => (Throws e, w')
       | (Returns _, w') => (Returns tt, setMode w')
       end
  else (Returns tt, setMode w).

(** ** Vocabulary of the properties *)

(** A value the caller can hold: not a reference to a reclaimed object. *)
Definition alive (reclaimed : gset nat) (v : val) : Prop :=
  match v with
  | VObj o => o ∉ reclaimed
  | _ => True
  end.

(** A key the comparator identifies with itself and that is still held. *)
Definition identicalKey (reclaimed : gset nat) (compare : val -> val -> bool)
    (k : val) : Prop :=
  alive reclaimed k /\ compare k k = true.

(** The tree with one branch: one level per key, the value at the leaf. *)
Fixpoint chain (keys : list mapkey) (leaf : slot) : node :=
  match keys with
  | [] => {| cache := []; value := leaf |}
  | k :: keys' => {| cache := [(k, chain keys' leaf)]; value := NO_VALUE |}
  end.

(** Every map key held anywhere in a tree. *)
Fixpoint storedKeys (n : node) : list mapkey :=
  match n with
  | Node entries _ =>
      (fix go (entries : list (mapkey * node)) : list mapkey :=
         match entries with
         | [] => []
         | (k, child) :: rest => k :: storedKeys child ++ go rest
         end) entries
  end.

Fixpoint storedKeysIn (entries : list (mapkey * node)) : list mapkey :=
  match entries with
  | [] => []
  | (k, child) :: rest => k :: storedKeys child ++ storedKeysIn rest
  end.

(** Every value slot held anywhere in a tree. *)
Fixpoint storedSlots (n : node) : list slot :=
  match n with
  | Node entries s =>
      s :: (fix go (entries : list (mapkey * node)) : list slot :=
              match entries with
              | [] => []
              | (_, child) :: rest => storedSlots child ++ go rest
              end) entries
  end.

Fixpoint storedSlotsIn (entries : list (mapkey * node)) : list slot :=
  match entries with
  | [] => []
  | (_, child) :: rest => storedSlots child ++ storedSlotsIn rest
  end.

(** ** Scenarios *)

Module Scenario.
(** Object 100 is the array ["dog", "nap", "bed"].  Objects 200 and 201 are
    generators, the first yielding nothing and the second yielding 1.
    Nothing else is iterable. *)
Definition iterate (v : val) : outcome (list val) :=
  match v with
  | VObj 100 => Returns [VStr "dog"; VStr "nap"; VStr "bed"]
  | VObj 200 => Returns []
  | VObj 201 => Returns [VNum 1]
  | _ => Throws (TypeError "object is not iterable")
  end.

(** A second spread gives the array again and finds a generator
    exhausted. *)
Definition iterateAgain (v : val) : list val :=
  match v with
  | VObj 100 => [VStr "dog"; VStr "nap"; VStr "bed"]
  | _ => []
  end.

(** Function 1 is a [select] returning that array, function 2 a [hash]
    returning one string, function 3 a comparator equating all objects,
    function 4 the [select] [function*(a) { if (a > 0) yield a }] on the
    arguments 0 and 1. *)
Definition table : functions :=
  {| functionBody := fun f arguments =>
       match f with
       | 1%nat => Returns (VObj 100)
       | 2%nat => Returns (VStr "dog__nap__bed")
       | 4%nat => match arguments with
                  | VNum 1 :: _ => Returns (VObj 201)
                  | _ => Returns (VObj 200)
                  end
       | _ => Returns VUndefined
       end;
     comparatorBody := fun f a b =>
       match f, a, b with
       | 3%nat, VObj _, VObj _ => true
       | _, _, _ => strictEquals a b
       end |}.

(** No function object is passed as an option in the scenarios below. *)
Definition noFunctions : functions :=
  {| functionBody := fun _ _ => Returns VUndefined;
     comparatorBody := fun _ _ _ => false |}.

Definition seven : jsfun := fun _ => Returns (VNum 7).
Definition double : jsfun := fun arguments =>
  match arguments with
  | VNum n :: _ => Returns (VNum (2 * n))
  | _ => Returns VNaN
  end.
Definition makeObject : jsfun := fun _ => Returns (VObj 5).
Definition nothing : jsfun := fun _ => Returns VUndefined.
Definition failing : jsfun := fun _ => Throws (Thrown (VStr "boom")).

(** The collector frees object [o]. *)
Definition collect (o : nat) (w : world) : world :=
  {| isSystemMemoryConstrained := isSystemMemoryConstrained w;
     cacheInstances := cacheInstances w;
     reclaimed := {[ o ]} ∪ reclaimed w |}.

Definition highPressure : option MemoryInfo :=
  Some {| jsHeapSizeLimit := 100; usedJSHeapSize := 90 |}.

(** One wrapper of [double] with default options. *)
Definition memoDouble : wrapper * world := memoize noFunctions double None initialWorld.

(** ... after a first call with argument 1. *)
Definition doubleCalled : callResult * world :=
  callWrapped iterate iterateAgain memoDouble.1 [VNum 1] memoDouble.2.

(** The first heap sample already shows pressure, before any wrapper
    exists; then a wrapper of [double] is made. *)
Definition underPressure : outcome unit * world :=
  memoryCallback highPressure initialWorld.
Definition memoConstrained : wrapper * world :=
  memoize noFunctions double None underPressure.2.

(** One wrapper of a function returning an object, called once. *)
Definition memoObject : wrapper * world := memoize noFunctions makeObject None initialWorld.
Definition objectCalled : callResult * world :=
  callWrapped iterate iterateAgain memoObject.1 [VNum 1] memoObject.2.

(** One wrapper of [seven], called once with object 1 as the argument. *)
Definition memoSeven : wrapper * world := memoize noFunctions seven None initialWorld.
Definition sevenCalled : callResult * world :=
  callWrapped iterate iterateAgain memoSeven.1 [VObj 1] memoSeven.2.
(** [x => x > 0 ? 2 * x : 0], memoized with the generator [select]. *)
Definition positiveDouble : jsfun := fun arguments =>
  match arguments with
  | VNum n :: _ => Returns (VNum (if (0 <? n)%Z then 2 * n else 0))
  | _ => Returns (VNum 0)
  end.
Definition memoGenerator : wrapper * world :=
  memoize table positiveDouble
    (Some {| opt_select := VFun 4; opt_hash := absent;
             opt_compare := absent |})
    initialWorld.

(** A wrapper of a function returning [undefined], made under pressure. *)
Definition memoNothingConstrained : wrapper * world :=
  memoize noFunctions nothing None underPressure.2.
End Scenario.

(** ** Vocabulary of the further properties *)

(** A sequence of calls of one wrapper, each on the root the previous call
    left: the results, and the root after the last call. *)
Fixpoint runCalls (iterate : val -> outcome (list val))
    (iterateAgain : val -> list val) (w : wrapper)
    (constrained : bool) (reclaimed : gset nat) (root : node)
    (calls : list (list val)) : list callResult :=
  match calls with
  | [] => []
  | arguments :: rest =>
      let r := wrappedFn iterate iterateAgain w constrained reclaimed root
                 arguments in
      r :: runCalls iterate iterateAgain w constrained reclaimed
             (rootAfter r) rest
  end.

Fixpoint rootAfterCalls (iterate : val -> outcome (list val))
    (iterateAgain : val -> list val) (w : wrapper)
    (constrained : bool) (reclaimed : gset nat) (root : node)
    (calls : list (list val)) : node :=
  match calls with
  | [] => root
  | arguments :: rest =>
      let r := wrappedFn iterate iterateAgain w constrained reclaimed root
                 arguments in
      rootAfterCalls iterate iterateAgain w constrained reclaimed
        (rootAfter r) rest
  end.

(** The key iterable of every call can be spread twice: the insertion goes
    under the path of the lookup.  This always holds with a [hash] and with
    no [select]; with [select] alone it holds when what [select] returns is
    an array or another repeatable iterable. *)
Definition repeatableKeys (iterate : val -> outcome (list val))
    (iterateAgain : val -> list val) (w : wrapper) : Prop :=
  forall arguments keys,
    keyPath iterate w arguments = Returns keys ->
    insertPath iterateAgain w arguments = keys.

(** The comparator is symmetric and transitive. *)
Definition partialEquivalence (compare : val -> val -> bool) : Prop :=
  (forall a b, compare a b = true -> compare b a = true) /\
  (forall a b c, compare a b = true -> compare b c = true ->
                 compare a c = true).

(** Two key paths the comparator identifies: the same length, and equal
    level by level. *)
Definition identicalPaths (compare : val -> val -> bool)
    (keys keys' : list val) : Prop :=
  Forall2 (fun k k' => compare k k' = true) keys keys'.

(** [fn] does not tell apart calls whose key paths are identified. *)
Definition respectsKeyPaths (iterate : val -> outcome (list val))
    (w : wrapper) : Prop :=
  forall arguments arguments' keys keys',
    keyPath iterate w arguments = Returns keys ->
    keyPath iterate w arguments' = Returns keys' ->
    identicalPaths (compare w) keys keys' ->
    fn w arguments = fn w arguments'.

(** Every value the cache holds is what [fn] returns for the calls that
    reach it. *)
Definition soundFor (iterate : val -> outcome (list val)) (w : wrapper)
    (reclaimed : gset nat) (root : node) : Prop :=
  forall arguments keys v,
    keyPath iterate w arguments = Returns keys ->
    getValueAt reclaimed (compare w) root keys = Some v ->
    fn w arguments = Returns v.

(** A map key or a value slot that holds an object without a weak handle. *)
Definition strongKey (k : mapkey) : bool :=
  match k with
  | KVal (VObj _) => true
  | _ => false
  end.

Definition strongSlot (s : slot) : bool :=
  match s with
  | Direct (VObj _) => true
  | _ => false
  end.

Definition holdsNoObjectStrongly (n : node) : Prop :=
  Forall (fun k => strongKey k = false) (storedKeys n) /\
  Forall (fun s => strongSlot s = false) (storedSlots n).

(** The test of the observer callback on its sample. *)
Definition sampleShowsPressure (sample : option MemoryInfo) : bool :=
  match sample with
  | Some m => ratioAtLeast80 (usedJSHeapSize m) (jsHeapSizeLimit m)
  | None => false
  end.

(** Some root of the registry is still alive. *)
Definition someLiveRoot (w : world) : bool :=
  existsb (fun wrapped => match wrapped with Some _ => true | None => false end)
    (cacheInstances w).

(** * Properties *)

(** ** The outcome monad *)

Lemma outcome_bind_returns {A B : Type} (f : A -> outcome B) (a : A) :
  (Returns a ≫= f) = f a.
Proof. reflexivity. Qed.

(** ** Weak handles *)

Lemma deref_alive (reclaimed : gset nat) (o : nat) :
  o ∉ reclaimed -> deref reclaimed o = VObj o.
Proof. intros Ho. unfold deref. by case_decide. Qed.

Lemma deref_reclaimed (reclaimed : gset nat) (o : nat) :
  o ∈ reclaimed -> deref reclaimed o = VUndefined.
Proof. intros Ho. unfold deref. by case_decide. Qed.

Lemma isNonNullObject_spec (v : val) :
  isNonNullObject v = true <-> exists o, v = VObj o.
Proof.
  split.
  - destruct v; cbn; try discriminate. eauto.
  - intros [o ->]. reflexivity.
Qed.

Lemma boxKey_cases (key : val) :
  boxKey key = match key with VObj o => KWeak o | _ => KVal key end.
Proof. by destruct key. Qed.

Lemma boxValue_cases (v : val) :
  boxValue v = match v with VObj o => Weak o | _ => Direct v end.
Proof. by destruct v. Qed.

Lemma unwrapKey_boxKey (reclaimed : gset nat) (key : val) :
  alive reclaimed key -> unwrapKey reclaimed (boxKey key) = key.
Proof.
  rewrite boxKey_cases. destruct key; cbn; try done.
  apply deref_alive.
Qed.

Lemma unboxValue_boxValue (reclaimed : gset nat) (v : val) :
  alive reclaimed v -> unboxValue reclaimed (boxValue v) = Some v.
Proof.
  rewrite boxValue_cases. destruct v; cbn; try done.
  intros Ho. by rewrite deref_alive.
Qed.

Lemma boxValue_not_empty (v : val) : boxValue v <> NO_VALUE.
Proof. rewrite boxValue_cases. by destruct v. Qed.

(** ** The default comparator *)

Lemma strictEquals_true (a b : val) :
  strictEquals a b = true <-> a = b /\ a <> VNaN.
Proof.
  unfold strictEquals. split.
  - destruct a, b; try discriminate; intros H;
      apply bool_decide_eq_true in H; by split.
  - intros [<- Hnan]. destruct a; try done; by apply bool_decide_eq_true.
Qed.

(** [===] is symmetric and transitive; it is not reflexive at [NaN]. *)
Lemma referenitalEquality_symmetric (a b : val) :
  referenitalEquality a b = true -> referenitalEquality b a = true.
Proof.
  unfold referenitalEquality. rewrite !strictEquals_true.
  intros [-> H]. by split.
Qed.

Lemma referenitalEquality_transitive (a b c : val) :
  referenitalEquality a b = true -> referenitalEquality b c = true ->
  referenitalEquality a c = true.
Proof.
  unfold referenitalEquality. rewrite !strictEquals_true.
  intros [-> H] [-> _]. by split.
Qed.

(** ** The cache tree *)

Section TreeFacts.
Variable reclaimed : gset nat.
Variable compare : val -> val -> bool.


(** A mutation of the node [getNode] returned is seen by the next
    [getNode] for the same key. *)
Lemma getNodeIn_replaceNode entries key n n' :
  getNodeIn reclaimed compare entries key = Some n ->
  getNodeIn reclaimed compare
    (replaceNode reclaimed compare entries key n') key = Some n'.
Proof.
  induction entries as [|[k child] rest IH]; cbn; [done|].
  destruct (compare (unwrapKey reclaimed k) key) eqn:Hc; cbn.
  - by rewrite Hc.
  - rewrite Hc. exact IH.
Qed.

(** After [cache.set] of a key no entry matched, the new entry is the
    first match. *)
Lemma getNodeIn_mapSet entries key n' :
  getNodeIn reclaimed compare entries key = None ->
  identicalKey reclaimed compare key ->
  getNodeIn reclaimed compare (mapSet entries (boxKey key) n') key = Some n'.
Proof.
  intros Hnone [Halive Hrefl].
  induction entries as [|[k child] rest IH]; cbn in *.
  - by rewrite unwrapKey_boxKey, Hrefl.
  - destruct (compare (unwrapKey reclaimed k) key) eqn:Hc; [done|].
    destruct (sameKey k (boxKey key)) eqn:Hsame; cbn; rewrite Hc.
    + exfalso. rewrite boxKey_cases in Hsame.
      destruct k as [v|o]; [|done].
      destruct key; cbn in Hsame; try done;
        apply bool_decide_eq_true in Hsame; subst v;
        cbn in Hc; congruence.
    + by apply IH.
Qed.

(** Reading back the path just written. *)
Lemma getValueAt_setValueAt n v keys :
  Forall (identicalKey reclaimed compare) keys ->
  getValueAt reclaimed compare (setValueAt reclaimed compare n v keys) keys
  = unboxValue reclaimed (boxValue v).
Proof.
  intros Hkeys. revert n.
  induction Hkeys as [|key keys' Hkey _ IH]; intros n; [done|].
  cbn. unfold getNode.
  destruct (getNodeIn reclaimed compare (cache n) key) as [nextNode|] eqn:Hget; cbn.
  - erewrite getNodeIn_replaceNode by done. apply IH.
  - rewrite getNodeIn_mapSet by done. apply IH.
Qed.

(** Inserting into an empty root builds a single branch. *)
Lemma setValueAt_createNode v keys :
  setValueAt reclaimed compare createNode v keys
  = chain (boxKey <$> keys) (boxValue v).
Proof.
  induction keys as [|key keys' IH]; [done|].
  cbn. by rewrite IH.
Qed.
(** Under a comparator that is symmetric and transitive, keys that compare
    equal select the same child, so paths that compare equal level by level
    read the same value. *)
Lemma getNodeIn_identical entries key key' :
  (forall a b, compare a b = true -> compare b a = true) ->
  (forall a b c, compare a b = true -> compare b c = true ->
                 compare a c = true) ->
  compare key key' = true ->
  getNodeIn reclaimed compare entries key'
  = getNodeIn reclaimed compare entries key.
Proof.
  intros Hsym Htrans Hkk'.
  induction entries as [|[k child] rest IH]; cbn; [done|].
  rewrite IH.
  destruct (compare (unwrapKey reclaimed k) key) eqn:Hc.
  - by rewrite (Htrans _ _ _ Hc Hkk').
  - destruct (compare (unwrapKey reclaimed k) key') eqn:Hc'; [|done].
    rewrite (Htrans _ _ _ Hc' (Hsym _ _ Hkk')) in Hc. discriminate.
Qed.

Lemma getValueAt_identical n keys keys' :
  (forall a b, compare a b = true -> compare b a = true) ->
  (forall a b c, compare a b = true -> compare b c = true ->
                 compare a c = true) ->
  Forall2 (fun k k' => compare k k' = true) keys keys' ->
  getValueAt reclaimed compare n keys' = getValueAt reclaimed compare n keys.
Proof.
  intros Hsym Htrans Hkeys. revert n.
  induction Hkeys as [|key key' keys keys' Hkk' _ IH]; intros n; [done|].
  cbn. unfold getNode. rewrite (getNodeIn_identical _ _ _ Hsym Htrans Hkk').
  destruct (getNodeIn reclaimed compare (cache n) key); [apply IH|done].
Qed.
End TreeFacts.

(** ** One call of the wrapper *)

Section WrapperFacts.
Variable iterate : val -> outcome (list val).
Variable iterateAgain : val -> list val.

Lemma keyPath_resolved w arguments path :
  keyPath iterate w arguments = Returns path ->
  exists keys, resolveKeys w arguments = Returns keys /\
               spreadKeys iterate keys = Returns path.
Proof.
  unfold keyPath. destruct (resolveKeys w arguments) as [keys|e]; [|done].
  intros Hspread. by exists keys.
Qed.

Lemma wrappedFn_unresolved w constrained reclaimed root arguments e :
  keyPath iterate w arguments = Throws e ->
  wrappedFn iterate iterateAgain w constrained reclaimed root arguments
  = {| returned := Throws e; rootAfter := root; fnCalls := [] |}.
Proof.
  unfold keyPath, wrappedFn.
  destruct (resolveKeys w arguments) as [keys|e']; cbn.
  - by intros ->.
  - by intros [= ->].
Qed.

Lemma wrappedFn_hit w constrained reclaimed root arguments keys v :
  keyPath iterate w arguments = Returns keys ->
  getValueAt reclaimed (compare w) root keys = Some v ->
  wrappedFn iterate iterateAgain w constrained reclaimed root arguments
  = {| returned := Returns v; rootAfter := root; fnCalls := [] |}.
Proof.
  intros (k & Hres & Hspread)%keyPath_resolved Hget.
  unfold wrappedFn. by rewrite Hres, Hspread, Hget.
Qed.

Lemma wrappedFn_miss w reclaimed root arguments keys v :
  keyPath iterate w arguments = Returns keys ->
  getValueAt reclaimed (compare w) root keys = None ->
  fn w arguments = Returns v ->
  wrappedFn iterate iterateAgain w false reclaimed root arguments
  = {| returned := Returns v;
       rootAfter := setValueAt reclaimed (compare w) root v
                      (insertPath iterateAgain w arguments);
       fnCalls := [arguments] |}.
Proof.
  intros (k & Hres & Hspread)%keyPath_resolved Hget Hfn.
  unfold wrappedFn, insertPath. by rewrite Hres, Hspread, Hget, Hfn.
Qed.

Lemma wrappedFn_throws w constrained reclaimed root arguments keys e :
  keyPath iterate w arguments = Returns keys ->
  getValueAt reclaimed (compare w) root keys = None ->
  fn w arguments = Throws e ->
  wrappedFn iterate iterateAgain w constrained reclaimed root arguments
  = {| returned := Throws e; rootAfter := root; fnCalls := [arguments] |}.
Proof.
  intros (k & Hres & Hspread)%keyPath_resolved Hget Hfn.
  unfold wrappedFn. by rewrite Hres, Hspread, Hget, Hfn.
Qed.

(** Under memory pressure a miss ends in the [TypeError] of the assignment
    to the const [rootNode], after [fn] has run and before anything is
    stored. *)
Lemma wrappedFn_constrained_miss w reclaimed root arguments keys v :
  keyPath iterate w arguments = Returns keys ->
  getValueAt reclaimed (compare w) root keys = None ->
  fn w arguments = Returns v ->
  wrappedFn iterate iterateAgain w true reclaimed root arguments
  = {| returned := Throws constAssignment; rootAfter := root;
       fnCalls := [arguments] |}.
Proof.
  intros (k & Hres & Hspread)%keyPath_resolved Hget Hfn.
  unfold wrappedFn. by rewrite Hres, Hspread, Hget, Hfn.
Qed.

(** With a [hash], or with no [select], the insertion goes under the path
    of the lookup. *)
Lemma insertPath_keyPath w arguments keys :
  (hash w <> None \/ select w = None) ->
  keyPath iterate w arguments = Returns keys ->
  insertPath iterateAgain w arguments = keys.
Proof.
  unfold keyPath, insertPath, resolveKeys.
  destruct (hash w) as [h|], (select w) as [s|]; intros [Hh|Hs]; try done;
    cbn.
  - destruct (s arguments) as [selected|]; cbn; [|done].
    destruct (h [selected]); cbn; [|done]. by intros [= <-].
  - destruct (h arguments); cbn; [|done]. by intros [= <-].
  - destruct (h arguments); cbn; [|done]. by intros [= <-].
  - by intros [= <-].
Qed.

(** X15. In normal mode, when the key iterable can be spread twice, two
    calls in a row with the same arguments, whose keys are held by the
    caller and identified with themselves by the comparator, behave as
    follows.  On a miss the first call invokes [fn] once, returns its
    result and stores it under the key path; on a hit it returns the
    stored value without invoking [fn].  The second call never invokes
    [fn], returns what the first call returned and leaves the cache as it
    is.  The same holds for a second call with other arguments whose key
    path is identified with the first one, when the comparator is
    symmetric and transitive. *)
Theorem repeated_call_returns_stored_result
    w reclaimed root arguments keys r :
  keyPath iterate w arguments = Returns keys ->
  insertPath iterateAgain w arguments = keys ->
  Forall (identicalKey reclaimed (compare w)) keys ->
  fn w arguments = Returns r ->
  alive reclaimed r ->
  let first :=
    wrappedFn iterate iterateAgain w false reclaimed root arguments in
  let second :=
    wrappedFn iterate iterateAgain w false reclaimed (rootAfter first)
      arguments in
  (getValueAt reclaimed (compare w) root keys = None ->
   fnCalls first = [arguments] /\ returned first = Returns r /\
   rootAfter first = setValueAt reclaimed (compare w) root r keys /\
   getValueAt reclaimed (compare w) (rootAfter first) keys = Some r) /\
  (forall v, getValueAt reclaimed (compare w) root keys = Some v ->
             fnCalls first = [] /\ returned first = Returns v /\
             rootAfter first = root) /\
  (length (fnCalls first ++ fnCalls second) <= 1)%nat /\
  fnCalls second = [] /\ returned second = returned first /\
  rootAfter second = rootAfter first /\
  forall arguments' keys',
    partialEquivalence (compare w) ->
    keyPath iterate w arguments' = Returns keys' ->
    identicalPaths (compare w) keys keys' ->
    let second' :=
      wrappedFn iterate iterateAgain w false reclaimed (rootAfter first)
        arguments' in
    fnCalls second' = [] /\ returned second' = returned first /\
    rootAfter second' = rootAfter first.
Proof.
  intros Hk Hins Hkeys Hfn Hr first second.
  assert (exists v, returned first = Returns v /\
                    getValueAt reclaimed (compare w) (rootAfter first) keys
                    = Some v /\
                    (length (fnCalls first) <= 1)%nat)
    as (v & Hret & Hback & Hcalls).
  { subst first.
    destruct (getValueAt reclaimed (compare w) root keys) as [v|] eqn:Hget.
    - rewrite (wrappedFn_hit _ _ _ _ _ _ _ Hk Hget); cbn.
      exists v. repeat split; [done|lia].
    - rewrite (wrappedFn_miss _ _ _ _ _ _ Hk Hget Hfn), Hins; cbn.
      exists r. split; [done|]. split; [|lia].
      rewrite getValueAt_setValueAt by done.
      by apply unboxValue_boxValue. }
  split; [|split].
  - intros Hget. subst first.
    rewrite (wrappedFn_miss _ _ _ _ _ _ Hk Hget Hfn), Hins; cbn.
    repeat split.
    rewrite getValueAt_setValueAt by done.
    by apply unboxValue_boxValue.
  - intros v' Hget. subst first.
    by rewrite (wrappedFn_hit _ _ _ _ _ _ _ Hk Hget).
  - subst second. rewrite (wrappedFn_hit _ _ _ _ _ _ _ Hk Hback); cbn.
    rewrite app_nil_r.
    split; [done|]. split; [done|]. split; [done|]. split; [done|].
    intros arguments' keys' [Hsym Htrans] Hk' Hsame.
    rewrite <- (getValueAt_identical _ _ _ _ _ Hsym Htrans Hsame) in Hback.
    by rewrite (wrappedFn_hit _ _ _ _ _ _ _ Hk' Hback).
Qed.

End WrapperFacts.

(** A second call whose keys merely compare equal to the first call's keys,
    level by level, finds the value a fresh wrapper stored. *)
Lemma getValueAt_chain_identical reclaimed compare stored probes leaf :
  Forall2 (fun k p => alive reclaimed k /\ compare k p = true) stored probes ->
  getValueAt reclaimed compare (chain (boxKey <$> stored) leaf) probes
  = unboxValue reclaimed leaf.
Proof.
  induction 1 as [|k p stored probes [Hk Hc] _ IH]; [done|].
  cbn. unfold getNode. cbn. by rewrite unwrapKey_boxKey, Hc.
Qed.

Lemma repeated_call_witness :
  let w := Scenario.memoDouble.1 in
  let first := wrappedFn Scenario.iterate Scenario.iterateAgain w false ∅
                 createNode [VNum 4; VObj 1] in
  let second := wrappedFn Scenario.iterate Scenario.iterateAgain w false ∅
                  (rootAfter first) [VNum 4; VObj 1] in
  fnCalls first = [[VNum 4; VObj 1]] /\ returned first = Returns (VNum 8) /\
  rootAfter first
  = setValueAt ∅ (compare w) createNode (VNum 8) [VNum 4; VObj 1] /\
  getValueAt ∅ (compare w) (rootAfter first) [VNum 4; VObj 1]
  = Some (VNum 8) /\
  fnCalls second = [] /\ returned second = returned first.
Proof.
  destruct (repeated_call_returns_stored_result Scenario.iterate
              Scenario.iterateAgain Scenario.memoDouble.1 ∅ createNode
              [VNum 4; VObj 1] [VNum 4; VObj 1] (VNum 8))
    as (Hmiss & _ & _ & Hcalls & Hret & _).
  - reflexivity.
  - reflexivity.
  - repeat constructor. cbn. apply not_elem_of_empty.
  - reflexivity.
  - exact I.
  - destruct (Hmiss eq_refl) as (H1 & H2 & H3 & H4).
    exact (conj H1 (conj H2 (conj H3 (conj H4 (conj Hcalls Hret))))).
Defined.


(** ** Key resolution and option parsing *)

Lemma functionOrNull_function o p f :
  p o = VFun f -> functionOrNull (Some o) p = Some f.
Proof. intros Hp. unfold functionOrNull. by rewrite Hp. Qed.

Lemma functionOrNull_not_function o p :
  typeof (p o) <> "function" -> functionOrNull (Some o) p = None.
Proof. intros Hp. unfold functionOrNull. by destruct (p o). Qed.


(** C9. A [select], [hash] or [compare] option whose value is not a function
    gives the same wrapper as the option left out, whatever the other
    options are: no [select], no [hash], the default comparator.  [memoize]
    has no failing path: it always returns a wrapper. *)
Theorem malformed_option_is_absent
    (F : functions) (f : jsfun) (o : options) (v : val) (w : world) :
  typeof v <> "function" ->
  memoize F f (Some {| opt_select := v; opt_hash := opt_hash o;
                       opt_compare := opt_compare o |}) w
  = memoize F f (Some {| opt_select := absent; opt_hash := opt_hash o;
                         opt_compare := opt_compare o |}) w /\
  memoize F f (Some {| opt_select := opt_select o; opt_hash := v;
                       opt_compare := opt_compare o |}) w
  = memoize F f (Some {| opt_select := opt_select o; opt_hash := absent;
                         opt_compare := opt_compare o |}) w /\
  memoize F f (Some {| opt_select := opt_select o; opt_hash := opt_hash o;
                       opt_compare := v |}) w
  = memoize F f (Some {| opt_select := opt_select o; opt_hash := opt_hash o;
                         opt_compare := absent |}) w /\
  select (memoize F f (Some {| opt_select := v; opt_hash := opt_hash o;
                               opt_compare := opt_compare o |}) w).1 = None /\
  hash (memoize F f (Some {| opt_select := opt_select o; opt_hash := v;
                             opt_compare := opt_compare o |}) w).1 = None /\
  compare (memoize F f (Some {| opt_select := opt_select o;
                                opt_hash := opt_hash o;
                                opt_compare := v |}) w).1
  = referenitalEquality /\
  memoize F f (Some {| opt_select := v; opt_hash := v; opt_compare := v |}) w
  = memoize F f None w.
Proof.
  intros Hv. unfold memoize, functionOrNull, absent. cbn.
  destruct v; try done; repeat split.
Qed.

Lemma malformed_option_witness :
  let F := Scenario.noFunctions in
  let f := Scenario.double in
  let o := {| opt_select := VFun 1; opt_hash := VNull; opt_compare := VFun 2 |} in
  let v := VStr "not a function" in
  let w := initialWorld in
  typeof v <> "function" /\
  (memoize F f (Some {| opt_select := v; opt_hash := opt_hash o;
                       opt_compare := opt_compare o |}) w
  = memoize F f (Some {| opt_select := absent; opt_hash := opt_hash o;
                         opt_compare := opt_compare o |}) w /\
  memoize F f (Some {| opt_select := opt_select o; opt_hash := v;
                       opt_compare := opt_compare o |}) w
  = memoize F f (Some {| opt_select := opt_select o; opt_hash := absent;
                         opt_compare := opt_compare o |}) w /\
  memoize F f (Some {| opt_select := opt_select o; opt_hash := opt_hash o;
                       opt_compare := v |}) w
  = memoize F f (Some {| opt_select := opt_select o; opt_hash := opt_hash o;
                         opt_compare := absent |}) w /\
  select (memoize F f (Some {| opt_select := v; opt_hash := opt_hash o;
                               opt_compare := opt_compare o |}) w).1 = None /\
  hash (memoize F f (Some {| opt_select := opt_select o; opt_hash := v;
                             opt_compare := opt_compare o |}) w).1 = None /\
  compare (memoize F f (Some {| opt_select := opt_select o;
                                opt_hash := opt_hash o;
                                opt_compare := v |}) w).1
  = referenitalEquality /\
  memoize F f (Some {| opt_select := v; opt_hash := v; opt_compare := v |}) w
  = memoize F f None w).
Proof.
  intros F f o v w.
  assert (typeof v <> "function") as Hv by discriminate.
  split; [exact Hv|].
  exact (malformed_option_is_absent F f o v w Hv).
Defined.

(** ** What an insertion stores *)

Lemma storedKeys_unfold n : storedKeys n = storedKeysIn (cache n).
Proof. by destruct n. Qed.

Lemma storedSlots_unfold n : storedSlots n = value n :: storedSlotsIn (cache n).
Proof. by destruct n. Qed.

Section StoredFacts.
Variable reclaimed : gset nat.
Variable compare : val -> val -> bool.

Lemma getNodeIn_storedKeys entries key n :
  getNodeIn reclaimed compare entries key = Some n ->
  storedKeys n ⊆ storedKeysIn entries.
Proof.
  induction entries as [|[k child] rest IH]; cbn; [done|].
  destruct (compare (unwrapKey reclaimed k) key).
  - intros [= ->]. set_solver.
  - intros Hrest. specialize (IH Hrest). set_solver.
Qed.

Lemma getNodeIn_storedSlots entries key n :
  getNodeIn reclaimed compare entries key = Some n ->
  storedSlots n ⊆ storedSlotsIn entries.
Proof.
  induction entries as [|[k child] rest IH]; cbn; [done|].
  destruct (compare (unwrapKey reclaimed k) key).
  - intros [= ->]. set_solver.
  - intros Hrest. specialize (IH Hrest). set_solver.
Qed.

Lemma storedKeysIn_replaceNode entries key n' :
  storedKeysIn (replaceNode reclaimed compare entries key n')
  ⊆ storedKeysIn entries ++ storedKeys n'.
Proof.
  induction entries as [|[k child] rest IH]; cbn; [set_solver|].
  destruct (compare (unwrapKey reclaimed k) key); cbn; set_solver.
Qed.

Lemma storedSlotsIn_replaceNode entries key n' :
  storedSlotsIn (replaceNode reclaimed compare entries key n')
  ⊆ storedSlotsIn entries ++ storedSlots n'.
Proof.
  induction entries as [|[k child] rest IH]; cbn; [set_solver|].
  destruct (compare (unwrapKey reclaimed k) key); cbn; set_solver.
Qed.

Lemma storedKeysIn_mapSet entries k n' :
  storedKeysIn (mapSet entries k n')
  ⊆ storedKeysIn entries ++ k :: storedKeys n'.
Proof.
  induction entries as [|[k0 child] rest IH]; cbn; [set_solver|].
  destruct (sameKey k0 k); cbn; set_solver.
Qed.

Lemma storedSlotsIn_mapSet entries k n' :
  storedSlotsIn (mapSet entries k n')
  ⊆ storedSlotsIn entries ++ storedSlots n'.
Proof.
  induction entries as [|[k0 child] rest IH]; cbn; [set_solver|].
  destruct (sameKey k0 k); cbn; set_solver.
Qed.

(** The map keys of the tree after an insertion are the keys it had and
    the boxed keys of the path. *)
Lemma storedKeys_setValueAt n v keys :
  storedKeys (setValueAt reclaimed compare n v keys)
  ⊆ storedKeys n ++ (boxKey <$> keys).
Proof.
  revert n. induction keys as [|key keys' IH]; intros n.
  - rewrite !storedKeys_unfold. cbn. set_solver.
  - rewrite (storedKeys_unfold (setValueAt _ _ _ _ _)),
      (storedKeys_unfold n). cbn. unfold getNode.
    destruct (getNodeIn reclaimed compare (cache n) key) as [nextNode|]
      eqn:Hget; cbn.
    + pose proof (getNodeIn_storedKeys _ _ _ Hget) as Hsub.
      pose proof (storedKeysIn_replaceNode (cache n) key
                    (setValueAt reclaimed compare nextNode v keys')) as Hrep.
      specialize (IH nextNode). set_solver.
    + pose proof (storedKeysIn_mapSet (cache n) (boxKey key)
                    (setValueAt reclaimed compare createNode v keys')) as Hset.
      specialize (IH createNode). cbn in IH. set_solver.
Qed.

(** The value slots of the tree after an insertion are the slots it had,
    the empty slots of new nodes, and the boxed value. *)
Lemma storedSlots_setValueAt n v keys :
  storedSlots (setValueAt reclaimed compare n v keys)
  ⊆ boxValue v :: NO_VALUE :: storedSlots n.
Proof.
  revert n. induction keys as [|key keys' IH]; intros n.
  - rewrite !storedSlots_unfold. cbn. set_solver.
  - rewrite (storedSlots_unfold (setValueAt _ _ _ _ _)),
      (storedSlots_unfold n). cbn. unfold getNode.
    destruct (getNodeIn reclaimed compare (cache n) key) as [nextNode|]
      eqn:Hget; cbn.
    + pose proof (getNodeIn_storedSlots _ _ _ Hget) as Hsub.
      pose proof (storedSlotsIn_replaceNode (cache n) key
                    (setValueAt reclaimed compare nextNode v keys')) as Hrep.
      specialize (IH nextNode). set_solver.
    + pose proof (storedSlotsIn_mapSet (cache n) (boxKey key)
                    (setValueAt reclaimed compare createNode v keys')) as Hset.
      specialize (IH createNode). cbn in IH. set_solver.
Qed.
End StoredFacts.

(** X17. An insertion adds to the tree only the boxed keys of its path and
    the boxed value.  Boxing puts a reference to an object (a non-null
    value whose [typeof] is "object") behind a weak handle and stores every
    other value as it is: primitives, [null], and also functions. *)
Theorem insertion_boxes_objects
    (reclaimed : gset nat) (compare : val -> val -> bool)
    (n : node) (v : val) (keys : list val) :
  storedKeys (setValueAt reclaimed compare n v keys)
  ⊆ storedKeys n ++ (boxKey <$> keys) /\
  storedSlots (setValueAt reclaimed compare n v keys)
  ⊆ boxValue v :: NO_VALUE :: storedSlots n /\
  setValueAt reclaimed compare createNode v keys
  = chain (boxKey <$> keys) (boxValue v) /\
  (forall key, boxKey key
               = match key with VObj o => KWeak o | _ => KVal key end) /\
  (forall r, boxValue r
             = match r with VObj o => Weak o | _ => Direct r end) /\
  (forall x, isNonNullObject x = true <-> exists o, x = VObj o).
Proof.
  split; [apply storedKeys_setValueAt|].
  split; [apply storedSlots_setValueAt|].
  split; [apply setValueAt_createNode|].
  split; [apply boxKey_cases|].
  split; [apply boxValue_cases|].
  apply isNonNullObject_spec.
Qed.

(** C8. A function is not a primitive, yet [isNonNullObject] is false for
    it: inserted as a key and as a result, a function is stored as it is,
    and neither is behind a weak handle. *)
Lemma function_is_stored_strongly :
  isPrimitive (VFun 0) = false /\
  (forall o, boxKey (VFun 0) <> KWeak o) /\
  (forall o, boxValue (VFun 0) <> Weak o) /\
  setValueAt ∅ referenitalEquality createNode (VFun 2) [VFun 0]
  = {| cache := [(KVal (VFun 0),
                  {| cache := []; value := Direct (VFun 2) |})];
       value := NO_VALUE |}.
Proof. repeat split; intros; discriminate. Qed.

(** ** Reclaimed keys and values *)

(** A reclaimed key is compared as [undefined]. *)
Lemma getNodeIn_reclaimed_key reclaimed compare o child rest key :
  o ∈ reclaimed ->
  getNodeIn reclaimed compare ((KWeak o, child) :: rest) key
  = if compare VUndefined key then Some child
    else getNodeIn reclaimed compare rest key.
Proof. intros Ho. cbn. by rewrite deref_reclaimed. Qed.

(** With the default comparator a reclaimed key matches the probe key
    [undefined] and no other. *)
Lemma reclaimed_key_default_match (key : val) :
  referenitalEquality VUndefined key = true <-> key = VUndefined.
Proof.
  split; [|by intros ->].
  destruct key; cbn; intros H; try done; by apply bool_decide_eq_true in H.
Qed.

(** A leaf whose weakly held value was reclaimed reads as [undefined], which
    is not the [NO_VALUE] sentinel. *)
Lemma getValueAt_reclaimed_value reclaimed compare entries o :
  o ∈ reclaimed ->
  getValueAt reclaimed compare {| cache := entries; value := Weak o |} []
  = Some VUndefined.
Proof. intros Ho. cbn. by rewrite deref_reclaimed. Qed.

(** C5. A function returning an object is memoized and called with 1; the
    object is reclaimed; the next call with 1 finds the leaf, reads the dead
    weak handle as [undefined], and returns [undefined] without invoking
    [fn]: the lookup is a hit, not a miss. *)
Theorem reclaimed_result_is_returned_as_undefined :
  let wr := Scenario.memoObject.1 in
  let w1 := Scenario.objectCalled.2 in
  let w2 := Scenario.collect 5 w1 in
  let again := (callWrapped Scenario.iterate Scenario.iterateAgain wr [VNum 1] w2).1 in
  returned Scenario.objectCalled.1 = Returns (VObj 5) /\
  rootOf wr w1
  = {| cache := [(KVal (VNum 1), {| cache := []; value := Weak 5 |})];
       value := NO_VALUE |} /\
  getValueAt (reclaimed w2) (compare wr) (rootOf wr w2) [VNum 1]
  = Some VUndefined /\
  returned again = Returns VUndefined /\
  fnCalls again = [].
Proof. vm_compute. repeat split. Qed.

(** C7. A constant function is memoized with the default comparator and
    called with object 1; the object is reclaimed; a call with [undefined]
    then matches the dead key and returns the value cached for the object,
    without invoking [fn]. *)
Theorem reclaimed_key_matches_undefined :
  let wr := Scenario.memoSeven.1 in
  let w1 := Scenario.sevenCalled.2 in
  let w2 := Scenario.collect 1 w1 in
  let probe := (callWrapped Scenario.iterate Scenario.iterateAgain wr [VUndefined] w2).1 in
  rootOf wr w1
  = {| cache := [(KWeak 1, {| cache := []; value := Direct (VNum 7) |})];
       value := NO_VALUE |} /\
  getNode (reclaimed w1) referenitalEquality (rootOf wr w1) VUndefined
  = None /\
  getNode (reclaimed w2) referenitalEquality (rootOf wr w2) VUndefined
  = Some {| cache := []; value := Direct (VNum 7) |} /\
  returned probe = Returns (VNum 7) /\
  fnCalls probe = [].
Proof. vm_compute. repeat split. Qed.

(** ** Memory pressure *)

Lemma flushEach_throws instances :
  flushEach instances = Throws constAssignment <->
  exists root, Some root ∈ instances.
Proof.
  induction instances as [|[root|] rest IH]; cbn.
  - split; [done|]. intros [root Hin]. by apply elem_of_nil in Hin.
  - split; [|done]. intros _. exists root. by left.
  - rewrite IH. split; intros [root Hin]; exists root.
    + by right.
    + by apply elem_of_cons in Hin as [|].
Qed.

(** No heap sample changes any root: [flushCaches] either does nothing or
    throws. *)
Lemma memoryCallback_keeps_roots sample w :
  cacheInstances (memoryCallback sample w).2 = cacheInstances w.
Proof.
  unfold memoryCallback, flushCaches.
  destruct (_ && _); [|done].
  by destruct (flushEach (cacheInstances w)).
Qed.

(** With a live root the rising edge throws and leaves the mode as it
    was. *)
Lemma memoryCallback_rising_edge_throws m w root :
  ratioAtLeast80 (usedJSHeapSize m) (jsHeapSizeLimit m) = true ->
  isSystemMemoryConstrained w = false ->
  Some root ∈ cacheInstances w ->
  memoryCallback (Some m) w = (Throws constAssignment, w).
Proof.
  intros Hratio Hmode Hroot. unfold memoryCallback, flushCaches.
  rewrite Hratio, Hmode. cbn.
  assert (flushEach (cacheInstances w) = Throws constAssignment) as ->; [|done].
  apply flushEach_throws. eauto.
Qed.

(** C4. A wrapper has cached the result for argument 1 in normal mode; a
    heap sample of 90 used out of 100 arrives.  The flush throws at the
    assignment to the const [cacheInstance], the root keeps its entry, the
    mode stays normal, and the next call with 1 is a hit. *)
Theorem pressure_flush_throws_and_keeps_entries :
  let wr := Scenario.memoDouble.1 in
  let w1 := Scenario.doubleCalled.2 in
  let sampled := memoryCallback Scenario.highPressure w1 in
  let again := (callWrapped Scenario.iterate Scenario.iterateAgain wr [VNum 1] sampled.2).1 in
  isSystemMemoryConstrained w1 = false /\
  ratioAtLeast80 90 100 = true /\
  sampled.1 = Throws constAssignment /\
  isSystemMemoryConstrained sampled.2 = false /\
  cacheInstances sampled.2
  = [Some {| cache := [(KVal (VNum 1),
                        {| cache := []; value := Direct (VNum 2) |})];
             value := NO_VALUE |}] /\
  getValueAt (reclaimed sampled.2) (compare wr) (rootOf wr sampled.2) [VNum 1]
  = Some (VNum 2) /\
  returned again = Returns (VNum 2) /\
  fnCalls again = [].
Proof. vm_compute. repeat split. Qed.

(** C3. The first heap sample shows pressure before any wrapper exists, so
    the mode is constrained; a wrapper is then made and called with 1 and
    with 2.  Each call invokes [fn] and then throws at the assignment to
    the const [rootNode]; nothing is stored, and the second key path is not
    retrievable. *)
Theorem constrained_insertion_throws :
  let wr := Scenario.memoConstrained.1 in
  let w0 := Scenario.memoConstrained.2 in
  let c1 := callWrapped Scenario.iterate Scenario.iterateAgain wr [VNum 1] w0 in
  let c2 := callWrapped Scenario.iterate Scenario.iterateAgain wr [VNum 2] c1.2 in
  Scenario.underPressure.1 = Returns tt /\
  isSystemMemoryConstrained w0 = true /\
  returned c1.1 = Throws constAssignment /\
  fnCalls c1.1 = [[VNum 1]] /\
  returned c2.1 = Throws constAssignment /\
  fnCalls c2.1 = [[VNum 2]] /\
  rootOf wr c2.2 = createNode /\
  getValueAt (reclaimed c2.2) (compare wr) (rootOf wr c2.2) [VNum 2] = None.
Proof. vm_compute. repeat split. Qed.

(** C1. Under memory pressure a wrapper of a pure function is called twice
    in a row with the argument 4, which [===] identifies with itself.  Both
    calls invoke [fn] and both throw at the assignment to the const
    [rootNode]: [fn] runs twice, nothing is stored, and the second call
    does not return the first call's result. *)
Theorem repeated_call_under_pressure_invokes_fn_twice :
  let wr := Scenario.memoConstrained.1 in
  let w0 := Scenario.memoConstrained.2 in
  let c1 := callWrapped Scenario.iterate Scenario.iterateAgain wr [VNum 4] w0 in
  let c2 :=
    callWrapped Scenario.iterate Scenario.iterateAgain wr [VNum 4] c1.2 in
  isSystemMemoryConstrained w0 = true /\
  compare wr (VNum 4) (VNum 4) = true /\
  fn wr [VNum 4] = Returns (VNum 8) /\
  fnCalls c1.1 = [[VNum 4]] /\ returned c1.1 = Throws constAssignment /\
  rootOf wr c1.2 = createNode /\
  fnCalls c2.1 = [[VNum 4]] /\ returned c2.1 = Throws constAssignment /\
  length (fnCalls c1.1 ++ fnCalls c2.1) = 2%nat.
Proof. vm_compute. repeat split. Qed.

(** C10. Under memory pressure a wrapper of a function returning
    [undefined] is called twice in a row with the same argument.  The first
    call invokes [fn] and throws at the assignment to the const [rootNode]
    before the result is stored, so the second call is a miss and invokes
    [fn] again. *)
Theorem undefined_result_under_pressure_is_not_cached :
  let wr := Scenario.memoNothingConstrained.1 in
  let w0 := Scenario.memoNothingConstrained.2 in
  let c1 :=
    callWrapped Scenario.iterate Scenario.iterateAgain wr [VStr "a"] w0 in
  let c2 :=
    callWrapped Scenario.iterate Scenario.iterateAgain wr [VStr "a"] c1.2 in
  isSystemMemoryConstrained w0 = true /\
  fn wr [VStr "a"] = Returns VUndefined /\
  fnCalls c1.1 = [[VStr "a"]] /\ returned c1.1 = Throws constAssignment /\
  rootOf wr c1.2 = createNode /\
  getValueAt (reclaimed c1.2) (compare wr) (rootOf wr c1.2) [VStr "a"]
  = None /\
  fnCalls c2.1 = [[VStr "a"]] /\ returned c2.1 = Throws constAssignment.
Proof. vm_compute. repeat split. Qed.


(** ** Worked examples *)

(** The four shapes of the key path, on the call [(dog, path, "bed")] where
    [dog] is object 7 and [path] object 8. *)
Example keyPath_examples :
  let opts s h := Some {| opt_select := s; opt_hash := h;
                          opt_compare := absent |} in
  let path o := keyPath Scenario.iterate
                  (memoize Scenario.table Scenario.seven o initialWorld).1
                  [VObj 7; VObj 8; VStr "bed"] in
  path (opts (VFun 1) (VFun 2)) = Returns [VStr "dog__nap__bed"] /\
  path (opts absent (VFun 2)) = Returns [VStr "dog__nap__bed"] /\
  path (opts (VFun 1) absent)
  = Returns [VStr "dog"; VStr "nap"; VStr "bed"] /\
  path (opts absent absent) = Returns [VObj 7; VObj 8; VStr "bed"] /\
  path (opts (VStr "select") (VNum 3))
  = Returns [VObj 7; VObj 8; VStr "bed"].
Proof. repeat split. Qed.

(** With the default comparator a distinct object is a miss; with a
    comparator equating all objects it is a hit. *)
Example comparator_examples :
  let root cmp := setValueAt ∅ cmp createNode (VNum 7) [VObj 1; VStr "x"] in
  let custom := comparatorBody Scenario.table 3 in
  getValueAt ∅ referenitalEquality (root referenitalEquality)
    [VObj 1; VStr "x"] = Some (VNum 7) /\
  getValueAt ∅ referenitalEquality (root referenitalEquality)
    [VObj 2; VStr "x"] = None /\
  getValueAt ∅ custom (root custom) [VObj 2; VStr "x"] = Some (VNum 7).
Proof. vm_compute. repeat split. Qed.

(** [NaN] never equals itself under the default comparator: every call
    with it is a miss, and [Map.prototype.set] overwrites the entry. *)
Example nan_key_example :
  let root := setValueAt ∅ referenitalEquality createNode (VNum 1) [VNaN] in
  getValueAt ∅ referenitalEquality root [VNaN] = None /\
  setValueAt ∅ referenitalEquality root (VNum 2) [VNaN]
  = {| cache := [(KVal VNaN, {| cache := []; value := Direct (VNum 2) |})];
       value := NO_VALUE |}.
Proof. vm_compute. repeat split. Qed.

(** Pruning removes the entries keyed by reclaimed objects only. *)
Example pruneNodeCache_example :
  pruneNodeCache {[ 1%nat ]}
    [(KWeak 1, createNode); (KVal (VNum 1), createNode); (KWeak 2, createNode)]
  = [(KVal (VNum 1), createNode); (KWeak 2, createNode)].
Proof. vm_compute. reflexivity. Qed.

(** The heap ratio test at its boundary and on a missing sample. *)
Example ratioAtLeast80_examples :
  ratioAtLeast80 80 100 = true /\ ratioAtLeast80 79 100 = false /\
  ratioAtLeast80 0 0 = false /\ ratioAtLeast80 1 0 = true /\
  (memoryCallback None initialWorld).1 = Returns tt /\
  isSystemMemoryConstrained (memoryCallback None initialWorld).2 = false.
Proof. vm_compute. repeat split. Qed.

(** * Further properties of the cache tree *)

Lemma getValueAt_createNode reclaimed compare keys :
  getValueAt reclaimed compare createNode keys = None.
Proof. by destruct keys. Qed.

Section FrameFacts.
Variable reclaimed : gset nat.
Variable compare : val -> val -> bool.
Hypothesis Hper : partialEquivalence compare.

Lemma compare_left_false x k k' :
  compare k k' = false -> compare x k = true -> compare x k' = false.
Proof.
  destruct Hper as [Hsym Htrans]. intros Hkk' Hxk.
  destruct (compare x k') eqn:Hxk'; [|done].
  by rewrite (Htrans _ _ _ (Hsym _ _ Hxk) Hxk') in Hkk'.
Qed.

Lemma compare_self k k' : compare k k' = true -> compare k k = true.
Proof.
  destruct Hper as [Hsym Htrans]. intros Hkk'.
  exact (Htrans _ _ _ Hkk' (Hsym _ _ Hkk')).
Qed.

Lemma getNodeIn_replaceNode_other entries k k' X :
  compare k k' = false ->
  getNodeIn reclaimed compare (replaceNode reclaimed compare entries k X) k'
  = getNodeIn reclaimed compare entries k'.
Proof.
  intros Hkk'.
  induction entries as [|[x child] rest IH]; cbn; [done|].
  destruct (compare (unwrapKey reclaimed x) k) eqn:Hxk; cbn.
  - by rewrite (compare_left_false _ _ _ Hkk' Hxk).
  - by rewrite IH.
Qed.

Lemma getNodeIn_mapSet_other entries k k' X :
  getNodeIn reclaimed compare entries k = None ->
  alive reclaimed k ->
  getNodeIn reclaimed compare (mapSet entries (boxKey k) X) k'
  = match getNodeIn reclaimed compare entries k' with
    | Some m => Some m
    | None => if compare k k' then Some X else None
    end.
Proof.
  intros Hnone Halive.
  induction entries as [|[x child] rest IH]; cbn in *.
  - by rewrite unwrapKey_boxKey.
  - destruct (compare (unwrapKey reclaimed x) k) eqn:Hxk; [done|].
    destruct (sameKey x (boxKey k)) eqn:Hsame; cbn.
    + assert (x = KVal k) as ->.
      { rewrite boxKey_cases in Hsame. destruct x as [a|o]; [|done].
        destruct k; cbn in Hsame; try done;
          by apply bool_decide_eq_true in Hsame; subst a. }
      cbn in *.
      destruct (compare k k') eqn:Hkk'.
      * by rewrite (compare_self _ _ Hkk') in Hxk.
      * by destruct (getNodeIn reclaimed compare rest k').
    + destruct (compare (unwrapKey reclaimed x) k'); [done|]. by apply IH.
Qed.

Lemma setValueAt_frame n v keys keys' :
  Forall (alive reclaimed) keys ->
  ~ identicalPaths compare keys keys' ->
  getValueAt reclaimed compare (setValueAt reclaimed compare n v keys) keys'
  = getValueAt reclaimed compare n keys'.
Proof.
  destruct Hper as [Hsym Htrans].
  intros Halive. revert n keys'.
  induction Halive as [|k t Hk _ IH]; intros n keys' Hdiff.
  - destruct keys' as [|k' t']; [|done].
    exfalso. apply Hdiff. constructor.
  - destruct keys' as [|k' t'].
    { cbn. by destruct (getNode reclaimed compare n k). }
    cbn. unfold getNode.
    destruct (compare k k') eqn:Hkk'.
    + assert (~ identicalPaths compare t t') as Hdiff'.
      { intros Hsame. apply Hdiff. by constructor. }
      rewrite (getNodeIn_identical _ _ (cache n) _ _ Hsym Htrans Hkk').
      destruct (getNodeIn reclaimed compare (cache n) k) as [next|] eqn:Hget;
        cbn.
      * rewrite (getNodeIn_identical _ _ _ _ _ Hsym Htrans Hkk').
        erewrite getNodeIn_replaceNode by done. by apply IH.
      * rewrite getNodeIn_mapSet_other by done.
        rewrite (getNodeIn_identical _ _ (cache n) _ _ Hsym Htrans Hkk'), Hget.
        rewrite Hkk', IH by done. apply getValueAt_createNode.
    + destruct (getNodeIn reclaimed compare (cache n) k) as [next|] eqn:Hget;
        cbn.
      * by rewrite getNodeIn_replaceNode_other.
      * rewrite getNodeIn_mapSet_other by done. rewrite Hkk'.
        by destruct (getNodeIn reclaimed compare (cache n) k').
Qed.
End FrameFacts.

Lemma referenitalEquality_partialEquivalence :
  partialEquivalence referenitalEquality.
Proof.
  split.
  - apply referenitalEquality_symmetric.
  - apply referenitalEquality_transitive.
Qed.

(** X1. Reading back the path just written gives the value written, in any
    tree, when the keys are held by the caller and the comparator
    identifies each with itself, and the value has not been reclaimed. *)
Theorem lookup_after_insert
    (reclaimed : gset nat) (compare : val -> val -> bool)
    (n : node) (v : val) (keys : list val) :
  Forall (identicalKey reclaimed compare) keys ->
  alive reclaimed v ->
  getValueAt reclaimed compare (setValueAt reclaimed compare n v keys) keys
  = Some v.
Proof.
  intros Hkeys Hv. rewrite getValueAt_setValueAt by done.
  by apply unboxValue_boxValue.
Qed.

Lemma lookup_after_insert_witness :
  let n := setValueAt ∅ referenitalEquality createNode (VNum 1)
             [VObj 1; VStr "a"] in
  getValueAt ∅ referenitalEquality
    (setValueAt ∅ referenitalEquality n (VObj 9) [VObj 1; VStr "b"])
    [VObj 1; VStr "b"]
  = Some (VObj 9).
Proof.
  apply (lookup_after_insert ∅ referenitalEquality
           (setValueAt ∅ referenitalEquality createNode (VNum 1)
              [VObj 1; VStr "a"])
           (VObj 9) [VObj 1; VStr "b"]).
  - repeat constructor. cbn. apply not_elem_of_empty.
  - cbn. apply not_elem_of_empty.
Defined.

(** X2. An insertion changes the lookup of no other path: under a symmetric
    and transitive comparator, a path that is not identified with the
    inserted one (in length or at some level) reads after the insertion
    what it read before.  This covers prefixes and extensions of the
    inserted path. *)
Theorem insert_preserves_other_paths
    (reclaimed : gset nat) (compare : val -> val -> bool)
    (n : node) (v : val) (keys keys' : list val) :
  partialEquivalence compare ->
  Forall (alive reclaimed) keys ->
  ~ identicalPaths compare keys keys' ->
  getValueAt reclaimed compare (setValueAt reclaimed compare n v keys) keys'
  = getValueAt reclaimed compare n keys'.
Proof. intros Hper. by apply setValueAt_frame. Qed.

Lemma insert_preserves_other_paths_witness :
  let n := setValueAt ∅ referenitalEquality createNode (VNum 1)
             [VObj 1; VStr "a"] in
  getValueAt ∅ referenitalEquality
    (setValueAt ∅ referenitalEquality n (VNum 2) [VObj 1]) [VObj 1; VStr "a"]
  = getValueAt ∅ referenitalEquality n [VObj 1; VStr "a"].
Proof.
  apply (insert_preserves_other_paths ∅ referenitalEquality
           (setValueAt ∅ referenitalEquality createNode (VNum 1)
              [VObj 1; VStr "a"])
           (VNum 2) [VObj 1] [VObj 1; VStr "a"]).
  - exact referenitalEquality_partialEquivalence.
  - repeat constructor. cbn. apply not_elem_of_empty.
  - intros Hsame. inversion Hsame as [|? ? ? ? _ Htail]. inversion Htail.
Defined.

(** X3. After one insertion into an empty cache, a lookup finds the value
    exactly for the paths identified with the inserted one: a shorter or
    longer argument list, or one differing at some level, is a miss. *)
Theorem single_insert_hit_iff_identical
    (reclaimed : gset nat) (compare : val -> val -> bool)
    (v : val) (keys keys' : list val) :
  partialEquivalence compare ->
  Forall (alive reclaimed) keys ->
  alive reclaimed v ->
  (identicalPaths compare keys keys' ->
   getValueAt reclaimed compare
     (setValueAt reclaimed compare createNode v keys) keys' = Some v) /\
  (~ identicalPaths compare keys keys' ->
   getValueAt reclaimed compare
     (setValueAt reclaimed compare createNode v keys) keys' = None).
Proof.
  intros Hper Hkeys Hv. split.
  - intros Hsame. rewrite setValueAt_createNode.
    rewrite getValueAt_chain_identical; [by apply unboxValue_boxValue|].
    unfold identicalPaths in Hsame. clear Hper.
    induction Hsame as [|k k' t t' Hkk' _ IH]; [constructor|].
    apply Forall_cons in Hkeys as [Hk Ht]. constructor; [done|by apply IH].
  - intros Hdiff. rewrite setValueAt_frame by done.
    apply getValueAt_createNode.
Qed.

Lemma single_insert_witness :
  (identicalPaths referenitalEquality [VNum 1; VNum 2] [VNum 1] ->
   getValueAt ∅ referenitalEquality
     (setValueAt ∅ referenitalEquality createNode (VNum 3) [VNum 1; VNum 2])
     [VNum 1] = Some (VNum 3)) /\
  (~ identicalPaths referenitalEquality [VNum 1; VNum 2] [VNum 1] ->
   getValueAt ∅ referenitalEquality
     (setValueAt ∅ referenitalEquality createNode (VNum 3) [VNum 1; VNum 2])
     [VNum 1] = None).
Proof.
  apply (single_insert_hit_iff_identical ∅ referenitalEquality (VNum 3)
           [VNum 1; VNum 2] [VNum 1]).
  - exact referenitalEquality_partialEquivalence.
  - repeat constructor.
  - exact I.
Defined.

Section OverwriteFacts.
Variable reclaimed : gset nat.
Variable compare : val -> val -> bool.

Lemma replaceNode_replaceNode entries k A B :
  replaceNode reclaimed compare (replaceNode reclaimed compare entries k A) k B
  = replaceNode reclaimed compare entries k B.
Proof.
  induction entries as [|[x child] rest IH]; cbn; [done|].
  destruct (compare (unwrapKey reclaimed x) k) eqn:Hxk; cbn; rewrite Hxk.
  - done.
  - by rewrite IH.
Qed.

Lemma replaceNode_mapSet entries k A B :
  getNodeIn reclaimed compare entries k = None ->
  identicalKey reclaimed compare k ->
  replaceNode reclaimed compare (mapSet entries (boxKey k) A) k B
  = mapSet entries (boxKey k) B.
Proof.
  intros Hnone [Halive Hrefl].
  induction entries as [|[x child] rest IH]; cbn in *.
  - by rewrite unwrapKey_boxKey, Hrefl.
  - destruct (compare (unwrapKey reclaimed x) k) eqn:Hxk; [done|].
    destruct (sameKey x (boxKey k)) eqn:Hsame; cbn; rewrite Hxk.
    + exfalso. rewrite boxKey_cases in Hsame.
      destruct x as [a|o]; [|done].
      destruct k; cbn in Hsame; try done;
        apply bool_decide_eq_true in Hsame; subst a;
        cbn in Hxk; congruence.
    + by rewrite IH.
Qed.

(** X4. The last write wins: writing a path twice gives the same tree as
    writing the second value only.  In particular writing the same value
    again changes nothing. *)
Theorem insert_twice_is_last_insert n v1 v2 keys :
  Forall (identicalKey reclaimed compare) keys ->
  setValueAt reclaimed compare (setValueAt reclaimed compare n v1 keys) v2 keys
  = setValueAt reclaimed compare n v2 keys.
Proof.
  intros Hkeys. revert n.
  induction Hkeys as [|k t Hk _ IH]; intros n; [done|].
  cbn. unfold getNode.
  destruct (getNodeIn reclaimed compare (cache n) k) as [next|] eqn:Hget; cbn.
  - erewrite getNodeIn_replaceNode by done.
    by rewrite IH, replaceNode_replaceNode.
  - rewrite getNodeIn_mapSet by done.
    by rewrite IH, replaceNode_mapSet.
Qed.

Lemma length_storedKeysIn_replaceNode entries k next X :
  getNodeIn reclaimed compare entries k = Some next ->
  (length (storedKeysIn (replaceNode reclaimed compare entries k X))
   + length (storedKeys next)
   = length (storedKeysIn entries) + length (storedKeys X))%nat.
Proof.
  induction entries as [|[x child] rest IH]; cbn; [done|].
  destruct (compare (unwrapKey reclaimed x) k); cbn.
  - intros [= ->]. rewrite !length_app. lia.
  - intros Hrest. specialize (IH Hrest). rewrite !length_app. lia.
Qed.

Lemma length_storedKeysIn_mapSet entries bk X :
  (length (storedKeysIn (mapSet entries bk X))
   <= length (storedKeysIn entries) + 1 + length (storedKeys X))%nat.
Proof.
  induction entries as [|[x child] rest IH]; cbn.
  - rewrite length_app. cbn. lia.
  - destruct (sameKey x bk); cbn; rewrite !length_app; lia.
Qed.

(** X5. An insertion adds at most one map entry per key of its path, in the
    whole tree, whatever the comparator does. *)
Theorem insert_adds_at_most_one_entry_per_key n v keys :
  (length (storedKeys (setValueAt reclaimed compare n v keys))
   <= length (storedKeys n) + length keys)%nat.
Proof.
  revert n. induction keys as [|k t IH]; intros n.
  - rewrite !storedKeys_unfold. cbn. lia.
  - rewrite (storedKeys_unfold (setValueAt _ _ _ _ _)), (storedKeys_unfold n).
    cbn. unfold getNode.
    destruct (getNodeIn reclaimed compare (cache n) k) as [next|] eqn:Hget;
      cbn.
    + pose proof (length_storedKeysIn_replaceNode _ _ _
                    (setValueAt reclaimed compare next v t) Hget) as Hlen.
      specialize (IH next). lia.
    + pose proof (length_storedKeysIn_mapSet (cache n) (boxKey k)
                    (setValueAt reclaimed compare createNode v t)) as Hlen.
      specialize (IH createNode). cbn in IH. lia.
Qed.
End OverwriteFacts.

Lemma insert_twice_witness :
  setValueAt ∅ referenitalEquality
    (setValueAt ∅ referenitalEquality createNode (VNum 1) [VObj 1; VStr "a"])
    (VNum 2) [VObj 1; VStr "a"]
  = setValueAt ∅ referenitalEquality createNode (VNum 2) [VObj 1; VStr "a"].
Proof.
  apply (insert_twice_is_last_insert ∅ referenitalEquality createNode
           (VNum 1) (VNum 2) [VObj 1; VStr "a"]).
  repeat constructor. cbn. apply not_elem_of_empty.
Defined.

Section NaNFacts.
Variable reclaimed : gset nat.

Lemma getNodeIn_NaN entries :
  getNodeIn reclaimed referenitalEquality entries VNaN = None.
Proof.
  induction entries as [|[x child] rest IH]; cbn; [done|].
  unfold referenitalEquality, strictEquals.
  by destruct (unwrapKey reclaimed x).
Qed.

Lemma getValueAt_NaN n keys :
  VNaN ∈ keys ->
  getValueAt reclaimed referenitalEquality n keys = None.
Proof.
  revert n. induction keys as [|k t IH]; intros n Hin.
  - by apply elem_of_nil in Hin.
  - cbn. unfold getNode. apply elem_of_cons in Hin as [<-|Hin].
    + by rewrite getNodeIn_NaN.
    + destruct (getNodeIn reclaimed referenitalEquality (cache n) k);
        [by apply IH|done].
Qed.
End NaNFacts.

(** X6. With the default comparator a key path containing [NaN] is never
    found, in any cache: every call with such a path invokes [fn], also
    right after a call that stored a value for it. *)
Theorem nan_key_is_never_found
    (iterate : val -> outcome (list val))
    (iterateAgain : val -> list val) (w : wrapper)
    (reclaimed : gset nat) (root : node) (arguments keys : list val) (v : val) :
  compare w = referenitalEquality ->
  keyPath iterate w arguments = Returns keys ->
  VNaN ∈ keys ->
  fn w arguments = Returns v ->
  let first := wrappedFn iterate iterateAgain w false reclaimed root arguments in
  let second :=
    wrappedFn iterate iterateAgain w false reclaimed (rootAfter first) arguments in
  getValueAt reclaimed referenitalEquality root keys = None /\
  fnCalls first = [arguments] /\ returned first = Returns v /\
  fnCalls second = [arguments] /\ returned second = Returns v.
Proof.
  intros Hcmp Hk Hnan Hfn first second. subst first second.
  assert (forall n, getValueAt reclaimed (compare w) n keys = None) as Hmiss.
  { intros n. rewrite Hcmp. by apply getValueAt_NaN. }
  split; [by apply getValueAt_NaN|].
  rewrite (wrappedFn_miss _ _ _ _ _ _ _ _ Hk (Hmiss _) Hfn); cbn.
  rewrite (wrappedFn_miss _ _ _ _ _ _ _ _ Hk (Hmiss _) Hfn); cbn.
  done.
Qed.

Lemma nan_key_witness :
  let w := Scenario.memoDouble.1 in
  let first := wrappedFn Scenario.iterate Scenario.iterateAgain w false ∅ createNode [VNaN] in
  let second := wrappedFn Scenario.iterate Scenario.iterateAgain w false ∅ (rootAfter first)
                  [VNaN] in
  getValueAt ∅ referenitalEquality createNode [VNaN] = None /\
  fnCalls first = [[VNaN]] /\ returned first = Returns VNaN /\
  fnCalls second = [[VNaN]] /\ returned second = Returns VNaN.
Proof.
  apply (nan_key_is_never_found Scenario.iterate Scenario.iterateAgain Scenario.memoDouble.1 ∅
           createNode [VNaN] [VNaN] VNaN).
  - reflexivity.
  - reflexivity.
  - by left.
  - reflexivity.
Defined.

(** * Further properties of pruning and of the pressure callback *)

Section PruneFacts.
Variable reclaimed : gset nat.
Variable compare : val -> val -> bool.

Lemma getNodeIn_pruneNodeCache entries key :
  compare VUndefined key = false ->
  getNodeIn reclaimed compare (pruneNodeCache reclaimed entries) key
  = getNodeIn reclaimed compare entries key.
Proof.
  intros Hundef. unfold pruneNodeCache.
  induction entries as [|[x child] rest IH]; cbn; [done|].
  destruct x as [a|o]; cbn.
  - by rewrite IH.
  - case_bool_decide as Ho; cbn.
    + by rewrite deref_reclaimed, Hundef.
    + by rewrite IH.
Qed.

Lemma getNodeIn_pruned_live entries key :
  getNodeIn reclaimed compare (pruneNodeCache reclaimed entries) key
  = getNodeIn ∅ compare (pruneNodeCache reclaimed entries) key.
Proof.
  unfold pruneNodeCache.
  induction entries as [|[x child] rest IH]; cbn; [done|].
  destruct x as [a|o]; cbn.
  - by rewrite IH.
  - case_bool_decide as Ho; cbn; [done|].
    rewrite deref_alive by done.
    rewrite deref_alive by apply not_elem_of_empty.
    by rewrite IH.
Qed.

Lemma pruneNodeCache_idempotent entries :
  pruneNodeCache reclaimed (pruneNodeCache reclaimed entries)
  = pruneNodeCache reclaimed entries.
Proof.
  unfold pruneNodeCache.
  induction entries as [|[x child] rest IH]; cbn; [done|].
  destruct x as [a|o]; cbn.
  - by rewrite IH.
  - case_bool_decide as Ho; cbn; [done|].
    rewrite bool_decide_eq_false_2 by done. cbn. by rewrite IH.
Qed.
End PruneFacts.

(** X7. Pruning a node's map does not change what a lookup through that
    node finds, for every path whose first key the comparator does not
    identify with [undefined]; an empty path reads the node's own value and
    is never affected. *)
Theorem pruning_is_invisible_to_lookups
    (reclaimed : gset nat) (compare : val -> val -> bool)
    (n : node) (keys : list val) :
  (forall k, head keys = Some k -> compare VUndefined k = false) ->
  getValueAt reclaimed compare
    {| cache := pruneNodeCache reclaimed (cache n); value := value n |} keys
  = getValueAt reclaimed compare n keys.
Proof.
  intros Hhead. destruct keys as [|k t]; [done|].
  cbn. unfold getNode. cbn.
  by rewrite getNodeIn_pruneNodeCache by (by apply Hhead).
Qed.

Lemma pruning_is_invisible_witness :
  let n := setValueAt ∅ referenitalEquality
             (setValueAt ∅ referenitalEquality createNode (VNum 1) [VObj 1])
             (VNum 2) [VObj 2] in
  getValueAt {[ 1%nat ]} referenitalEquality
    {| cache := pruneNodeCache {[ 1%nat ]} (cache n); value := value n |}
    [VObj 2]
  = getValueAt {[ 1%nat ]} referenitalEquality n [VObj 2].
Proof.
  apply (pruning_is_invisible_to_lookups {[ 1%nat ]} referenitalEquality
           (setValueAt ∅ referenitalEquality
              (setValueAt ∅ referenitalEquality createNode (VNum 1) [VObj 1])
              (VNum 2) [VObj 2])
           [VObj 2]).
  intros k [= <-]. reflexivity.
Defined.

(** X8. After pruning, a map holds no reclaimed key any more: lookups in it
    are the same as if nothing had been reclaimed, whatever the comparator
    does with [undefined], and pruning it again removes nothing. *)
Theorem pruned_map_has_no_dead_key
    (reclaimed : gset nat) (compare : val -> val -> bool)
    (entries : list (mapkey * node)) (key : val) :
  getNodeIn reclaimed compare (pruneNodeCache reclaimed entries) key
  = getNodeIn ∅ compare (pruneNodeCache reclaimed entries) key /\
  pruneNodeCache reclaimed (pruneNodeCache reclaimed entries)
  = pruneNodeCache reclaimed entries.
Proof.
  split.
  - apply getNodeIn_pruned_live.
  - apply pruneNodeCache_idempotent.
Qed.

Lemma flushEach_someLive (instances : list (option node)) :
  flushEach instances
  = if existsb (fun wrapped => match wrapped with
                               | Some _ => true
                               | None => false
                               end) instances
    then Throws constAssignment else Returns tt.
Proof.
  induction instances as [|[root|] rest IH]; cbn; [done|done|exact IH].
Qed.

(** X9. The observer callback throws exactly when a sample shows pressure,
    the mode is normal and some root is alive; it then changes nothing, not
    even the mode.  In every other case it returns and sets the mode to
    what the sample shows.  It never changes a root. *)
Theorem memoryCallback_cases (sample : option MemoryInfo) (w : world) :
  memoryCallback sample w
  = (if sampleShowsPressure sample && negb (isSystemMemoryConstrained w)
        && someLiveRoot w
     then (Throws constAssignment, w)
     else (Returns tt,
           {| isSystemMemoryConstrained := sampleShowsPressure sample;
              cacheInstances := cacheInstances w;
              reclaimed := reclaimed w |})) /\
  cacheInstances (memoryCallback sample w).2 = cacheInstances w.
Proof.
  split.
  - unfold memoryCallback, flushCaches, someLiveRoot.
    fold (sampleShowsPressure sample).
    rewrite flushEach_someLive.
    destruct (sampleShowsPressure sample),
      (isSystemMemoryConstrained w); cbn; try done.
    by destruct (existsb _ _).
  - unfold memoryCallback, flushCaches.
    destruct (_ && _); [|done].
    by destruct (flushEach (cacheInstances w)).
Qed.

(** * Further properties of the wrapper *)

Section SequenceFacts.
Variable iterate : val -> outcome (list val).
Variable iterateAgain : val -> list val.

Lemma wrappedFn_constrained_root w reclaimed root arguments :
  rootAfter (wrappedFn iterate iterateAgain w true reclaimed root arguments) = root.
Proof.
  unfold wrappedFn.
  destruct (resolveKeys w arguments) as [keys|e]; [|done].
  destruct (spreadKeys iterate keys) as [path|e]; [|done].
  destruct (getValueAt reclaimed (compare w) root path); [done|].
  by destruct (fn w arguments).
Qed.

Lemma wrappedFn_constrained_empty w reclaimed arguments :
  exists e,
    returned (wrappedFn iterate iterateAgain w true reclaimed createNode arguments)
    = Throws e.
Proof.
  unfold wrappedFn.
  destruct (resolveKeys w arguments) as [keys|e]; [|by exists e].
  destruct (spreadKeys iterate keys) as [path|e]; [|by exists e].
  rewrite getValueAt_createNode.
  destruct (fn w arguments) as [v|e]; cbn; eauto.
Qed.

Lemma alive_empty v : alive ∅ v.
Proof. destruct v; cbn; first [done | apply not_elem_of_empty]. Qed.

Lemma soundFor_createNode w reclaimed : soundFor iterate w reclaimed createNode.
Proof. intros arguments keys v _. by rewrite getValueAt_createNode. Qed.

(** One call keeps the cache sound and returns what [fn] returns. *)
Lemma wrappedFn_transparent w root arguments keys :
  partialEquivalence (compare w) ->
  respectsKeyPaths iterate w ->
  repeatableKeys iterate iterateAgain w ->
  soundFor iterate w ∅ root ->
  keyPath iterate w arguments = Returns keys ->
  let r := wrappedFn iterate iterateAgain w false ∅ root arguments in
  returned r = fn w arguments /\ soundFor iterate w ∅ (rootAfter r).
Proof.
  intros Hper Hresp Hrep Hsound Hk r. subst r.
  destruct (getValueAt ∅ (compare w) root keys) as [v|] eqn:Hget.
  { rewrite (wrappedFn_hit _ _ _ _ _ _ _ _ _ Hk Hget); cbn.
    split; [|done]. symmetry. by eapply Hsound. }
  destruct (fn w arguments) as [v|e] eqn:Hfn.
  2:{ by rewrite (wrappedFn_throws _ _ _ _ _ _ _ _ _ Hk Hget Hfn). }
  rewrite (wrappedFn_miss _ _ _ _ _ _ _ _ Hk Hget Hfn); cbn.
  rewrite (Hrep _ _ Hk).
  split; [done|].
  intros arguments' keys' v' Hk' Hget'.
  destruct (decide (Forall2 (fun k k' => compare w k k' = true) keys keys'))
    as [Hsame|Hdiff].
  - destruct Hper as [Hsym Htrans].
    rewrite (getValueAt_identical _ _ _ _ _ Hsym Htrans Hsame) in Hget'.
    rewrite getValueAt_setValueAt in Hget'.
    + rewrite unboxValue_boxValue in Hget' by apply alive_empty.
      injection Hget' as <-.
      rewrite <- (Hresp _ _ _ _ Hk Hk' Hsame). exact Hfn.
    + clear -Hsame Hsym Htrans.
      induction Hsame as [|k k' t t' Hkk' _ IH]; constructor; [|done].
      split; [apply alive_empty|].
      exact (Htrans _ _ _ Hkk' (Hsym _ _ Hkk')).
  - rewrite setValueAt_frame in Hget'; try done.
    + by eapply Hsound.
    + apply Forall_forall. intros. apply alive_empty.
Qed.

Lemma wrappedFn_resolver_error_sound w root arguments e :
  keyPath iterate w arguments = Throws e ->
  rootAfter (wrappedFn iterate iterateAgain w false ∅ root arguments) = root.
Proof. intros Hk. by rewrite (wrappedFn_unresolved _ _ _ _ _ _ _ _ Hk). Qed.

Lemma strongKey_boxKey key : strongKey (boxKey key) = false.
Proof. rewrite boxKey_cases. by destruct key. Qed.

Lemma strongSlot_boxValue v : strongSlot (boxValue v) = false.
Proof. rewrite boxValue_cases. by destruct v. Qed.

Lemma holdsNoObjectStrongly_setValueAt reclaimed compare n v keys :
  holdsNoObjectStrongly n ->
  holdsNoObjectStrongly (setValueAt reclaimed compare n v keys).
Proof.
  intros [Hkeys Hslots].
  rewrite Forall_forall in Hkeys. rewrite Forall_forall in Hslots.
  split; apply Forall_forall.
  - intros k Hin. apply storedKeys_setValueAt in Hin.
    apply elem_of_app in Hin as [Hin|Hin]; [by apply Hkeys|].
    apply list_elem_of_fmap in Hin as (key & -> & _).
    apply strongKey_boxKey.
  - intros s Hin. apply storedSlots_setValueAt in Hin.
    apply elem_of_cons in Hin as [->|Hin]; [apply strongSlot_boxValue|].
    apply elem_of_cons in Hin as [->|Hin]; [done|by apply Hslots].
Qed.

Lemma holdsNoObjectStrongly_wrappedFn w constrained reclaimed root arguments :
  holdsNoObjectStrongly root ->
  holdsNoObjectStrongly
    (rootAfter (wrappedFn iterate iterateAgain w constrained reclaimed root arguments)).
Proof.
  intros Hroot. unfold wrappedFn.
  destruct (resolveKeys w arguments) as [keys|e]; [|done].
  destruct (spreadKeys iterate keys) as [path|e]; [|done].
  destruct (getValueAt reclaimed (compare w) root path); [done|].
  destruct (fn w arguments); [|done].
  destruct constrained; [done|].
  by apply holdsNoObjectStrongly_setValueAt.
Qed.
End SequenceFacts.

(** X10. While the mode is constrained no call stores anything: after any
    sequence of calls the root is what it was.  A wrapper whose cache is
    empty therefore never returns a value in that mode: every call throws,
    [fn]'s own error or the [TypeError] of the assignment to the const
    [rootNode]. *)
Theorem constrained_wrapper_stores_nothing
    (iterate : val -> outcome (list val))
    (iterateAgain : val -> list val) (w : wrapper)
    (reclaimed : gset nat) (root : node) (calls : list (list val)) :
  rootAfterCalls iterate iterateAgain w true reclaimed root calls = root /\
  Forall (fun r => exists e, returned r = Throws e)
    (runCalls iterate iterateAgain w true reclaimed createNode calls).
Proof.
  split.
  - induction calls as [|arguments rest IH]; [done|].
    cbn [rootAfterCalls]. by rewrite wrappedFn_constrained_root.
  - induction calls as [|arguments rest IH]; [constructor|].
    cbn [runCalls]. constructor; [apply wrappedFn_constrained_empty|].
    by rewrite wrappedFn_constrained_root.
Qed.

Lemma runCalls_transparent iterate iterateAgain w root calls :
  partialEquivalence (compare w) ->
  respectsKeyPaths iterate w ->
  repeatableKeys iterate iterateAgain w ->
  soundFor iterate w ∅ root ->
  Forall2 (fun arguments r =>
             (exists keys, keyPath iterate w arguments = Returns keys) ->
             returned r = fn w arguments)
    calls (runCalls iterate iterateAgain w false ∅ root calls).
Proof.
  intros Hper Hresp Hrep. revert root.
  induction calls as [|arguments rest IH]; intros root Hsound;
    [constructor|].
  cbn [runCalls].
  destruct (keyPath iterate w arguments) as [keys|e] eqn:Hk.
  - destruct (wrappedFn_transparent iterate iterateAgain w root arguments
                keys Hper Hresp Hrep Hsound Hk) as [Hret Hsound'].
    constructor; [intros _; exact Hret|by apply IH].
  - constructor; [intros [keys Hkeys]; congruence|].
    apply IH. by rewrite (wrappedFn_resolver_error_sound _ _ _ _ _ e).
Qed.

(** X11. Memoization is transparent while nothing is reclaimed: for a
    symmetric and transitive comparator, a [fn] that does not tell apart
    calls with identified key paths, and key iterables that can be spread
    twice, every call in any sequence of calls of a new wrapper in normal
    mode returns or throws exactly what [fn] does on its arguments,
    provided the key path of the call resolves. *)
Theorem fresh_wrapper_is_transparent
    (iterate : val -> outcome (list val))
    (iterateAgain : val -> list val) (w : wrapper)
    (calls : list (list val)) :
  partialEquivalence (compare w) ->
  respectsKeyPaths iterate w ->
  repeatableKeys iterate iterateAgain w ->
  Forall2 (fun arguments r =>
             (exists keys, keyPath iterate w arguments = Returns keys) ->
             returned r = fn w arguments)
    calls (runCalls iterate iterateAgain w false ∅ createNode calls).
Proof.
  intros Hper Hresp Hrep. apply runCalls_transparent; try done.
  apply soundFor_createNode.
Qed.

(** With a [hash], or with no [select], the keys are an array or the
    [arguments] object, which can be spread twice. *)
Lemma repeatableKeys_without_select iterate iterateAgain w :
  (hash w <> None \/ select w = None) ->
  repeatableKeys iterate iterateAgain w.
Proof. intros Hw arguments keys. by apply insertPath_keyPath. Qed.

(** With the default options [fn] is only ever asked about the arguments
    themselves. *)
Lemma default_wrapper_respectsKeyPaths iterate w :
  hash w = None -> select w = None -> compare w = referenitalEquality ->
  respectsKeyPaths iterate w.
Proof.
  intros Hh Hs Hc arguments arguments' keys keys'.
  unfold keyPath, resolveKeys. rewrite Hh, Hs, Hc. cbn.
  intros [= <-] [= <-] Hsame.
  f_equal. unfold identicalPaths in Hsame.
  induction Hsame as [|a b t t' Hab _ IH]; [done|].
  apply strictEquals_true in Hab as [-> _]. by rewrite IH.
Qed.

Lemma fresh_wrapper_witness :
  let w := Scenario.memoDouble.1 in
  let calls := [[VNum 1]; [VNum 2]; [VNum 1]; [VNaN]] in
  Forall2 (fun arguments r =>
             (exists keys,
                keyPath Scenario.iterate w arguments = Returns keys) ->
             returned r = fn w arguments)
    calls (runCalls Scenario.iterate Scenario.iterateAgain w false ∅ createNode calls).
Proof.
  apply (fresh_wrapper_is_transparent Scenario.iterate Scenario.iterateAgain Scenario.memoDouble.1
           [[VNum 1]; [VNum 2]; [VNum 1]; [VNaN]]).
  - exact referenitalEquality_partialEquivalence.
  - apply default_wrapper_respectsKeyPaths; reflexivity.
  - apply repeatableKeys_without_select. by right.
Defined.

(** X12. The cache of a wrapper never holds an object without a weak
    handle: after any sequence of calls of a new wrapper, in either mode
    and whatever was reclaimed, no map key and no value slot of the tree is
    a direct reference to an object. *)
Theorem cache_never_holds_object_strongly
    (iterate : val -> outcome (list val))
    (iterateAgain : val -> list val) (w : wrapper) (constrained : bool)
    (reclaimed : gset nat) (calls : list (list val)) :
  holdsNoObjectStrongly
    (rootAfterCalls iterate iterateAgain w constrained reclaimed createNode calls).
Proof.
  assert (holdsNoObjectStrongly createNode) as Hinit.
  { split; cbn; repeat constructor. }
  revert Hinit. generalize createNode as root.
  induction calls as [|arguments rest IH]; intros root Hroot; [done|].
  cbn [rootAfterCalls]. apply IH. by apply holdsNoObjectStrongly_wrappedFn.
Qed.

(** X13. Each [memoize] gives its wrapper a new, empty root and touches
    neither the mode nor the roots of the wrappers made before; a call of
    the new wrapper stores into its own root and leaves the others as they
    were. *)
Theorem wrappers_have_independent_roots
    (iterate : val -> outcome (list val))
    (iterateAgain : val -> list val) (F : functions) (f : jsfun)
    (opts : option options) (w : world) (a : wrapper)
    (arguments : list val) :
  (rootNode a < length (cacheInstances w))%nat ->
  let b := (memoize F f opts w).1 in
  let w1 := (memoize F f opts w).2 in
  let called := callWrapped iterate iterateAgain b arguments w1 in
  rootOf b w1 = createNode /\
  rootOf a w1 = rootOf a w /\
  isSystemMemoryConstrained w1 = isSystemMemoryConstrained w /\
  rootOf b called.2 = rootAfter called.1 /\
  rootOf a called.2 = rootOf a w.
Proof.
  intros Ha b w1 called. subst b w1 called.
  unfold rootOf, callWrapped, memoize. cbn.
  assert ((cacheInstances w ++ [Some createNode]) !! rootNode a
          = cacheInstances w !! rootNode a) as Hold.
  { by apply lookup_app_l. }
  assert ((cacheInstances w ++ [Some createNode]) !! length (cacheInstances w)
          = Some (Some createNode)) as Hnew.
  { by rewrite list_lookup_middle. }
  rewrite Hold, Hnew. cbn.
  split; [done|]. split; [done|]. split; [done|]. split.
  - rewrite list_lookup_insert_eq; [done|]. rewrite length_app. cbn. lia.
  - rewrite list_lookup_insert_ne by lia. by rewrite Hold.
Qed.

Lemma independent_roots_witness :
  let iterate := Scenario.iterate in
  let iterateAgain := Scenario.iterateAgain in
  let w := Scenario.doubleCalled.2 in
  let a := Scenario.memoDouble.1 in
  let b := (memoize Scenario.noFunctions Scenario.seven None w).1 in
  let w1 := (memoize Scenario.noFunctions Scenario.seven None w).2 in
  let called := callWrapped iterate iterateAgain b [VNum 1] w1 in
  rootOf b w1 = createNode /\
  rootOf a w1 = rootOf a w /\
  isSystemMemoryConstrained w1 = isSystemMemoryConstrained w /\
  rootOf b called.2 = rootAfter called.1 /\
  rootOf a called.2 = rootOf a w.
Proof.
  apply (wrappers_have_independent_roots Scenario.iterate Scenario.iterateAgain
           Scenario.noFunctions Scenario.seven None Scenario.doubleCalled.2
           Scenario.memoDouble.1 [VNum 1]).
  cbn. lia.
Defined.

(** X14. An error thrown while the key path is resolved reaches the caller
    as it is, before any lookup: by [select], by [hash] on the arguments or
    on what [select] returned, or by the iteration of what [select]
    returned.  [fn] is not invoked and the cache is not touched, in either
    mode. *)
Theorem key_resolution_error_propagates
    (iterate : val -> outcome (list val))
    (iterateAgain : val -> list val) (w : wrapper) (constrained : bool)
    (reclaimed : gset nat) (root : node) (arguments : list val) (e : exn) :
  let failed := {| returned := Throws e; rootAfter := root; fnCalls := [] |} in
  let call := wrappedFn iterate iterateAgain w constrained reclaimed root arguments in
  (forall s, select w = Some s -> s arguments = Throws e -> call = failed) /\
  (forall h, select w = None -> hash w = Some h ->
             h arguments = Throws e -> call = failed) /\
  (forall s h selected,
     select w = Some s -> hash w = Some h ->
     s arguments = Returns selected -> h [selected] = Throws e ->
     call = failed) /\
  (forall s selected,
     select w = Some s -> hash w = None ->
     s arguments = Returns selected -> iterate selected = Throws e ->
     call = failed).
Proof.
  intros failed call. subst failed call. unfold wrappedFn, resolveKeys.
  repeat split.
  - intros s Hs He. rewrite Hs, He. by destruct (hash w).
  - intros h Hs Hh He. by rewrite Hs, Hh, He.
  - intros s h selected Hs Hh Hsel He. rewrite Hs, Hh, Hsel. cbn.
    by rewrite He.
  - intros s selected Hs Hh Hsel He. rewrite Hs, Hh, Hsel. cbn.
    by rewrite He.
Qed.

Lemma key_resolution_error_witness :
  let w := {| fn := Scenario.double;
              hash := None;
              select := Some Scenario.failing;
              compare := referenitalEquality;
              rootNode := 0 |} in
  wrappedFn Scenario.iterate Scenario.iterateAgain w false ∅ createNode [VNum 1]
  = {| returned := Throws (Thrown (VStr "boom")); rootAfter := createNode;
       fnCalls := [] |}.
Proof.
  apply (proj1 (key_resolution_error_propagates Scenario.iterate Scenario.iterateAgain
                  {| fn := Scenario.double;
                     hash := None;
                     select := Some Scenario.failing;
                     compare := referenitalEquality;
                     rootNode := 0 |}
                  false ∅ createNode [VNum 1] (Thrown (VStr "boom")))
           Scenario.failing); reflexivity.
Defined.

(** X16. With [select] alone, when what [select] returns can be spread only
    once (an iterator or a generator), a miss in normal mode stores the
    result under the empty path, in the root's own value slot, and adds no
    map entry: the call's own key path, if it is not empty, is a miss
    again, and a call whose key path is empty finds the value. *)
Theorem one_shot_keys_are_stored_at_the_root
    (iterate : val -> outcome (list val))
    (iterateAgain : val -> list val) (w : wrapper)
    (reclaimed : gset nat) (root : node) (arguments keys : list val)
    (s : jsfun) (selected v : val) :
  hash w = None ->
  select w = Some s ->
  s arguments = Returns selected ->
  iterate selected = Returns keys ->
  iterateAgain selected = [] ->
  getValueAt reclaimed (compare w) root keys = None ->
  fn w arguments = Returns v ->
  let r := wrappedFn iterate iterateAgain w false reclaimed root arguments in
  returned r = Returns v /\ fnCalls r = [arguments] /\
  rootAfter r = {| cache := cache root; value := boxValue v |} /\
  getValueAt reclaimed (compare w) (rootAfter r) []
  = unboxValue reclaimed (boxValue v) /\
  (keys <> [] ->
   getValueAt reclaimed (compare w) (rootAfter r) keys = None).
Proof.
  intros Hh Hs Hsel Hit Hagain Hget Hfn r. subst r.
  unfold wrappedFn, resolveKeys. rewrite Hh, Hs, Hsel. cbn.
  rewrite Hit, Hget, Hfn, Hagain. cbn.
  repeat split. intros Hne.
  destruct keys as [|k t]; [done|]. exact Hget.
Qed.

Lemma one_shot_keys_witness :
  let w := Scenario.memoGenerator.1 in
  let r := wrappedFn Scenario.iterate Scenario.iterateAgain w false ∅
             createNode [VNum 1] in
  returned r = Returns (VNum 2) /\ fnCalls r = [[VNum 1]] /\
  rootAfter r = {| cache := []; value := boxValue (VNum 2) |} /\
  getValueAt ∅ (compare w) (rootAfter r) []
  = unboxValue ∅ (boxValue (VNum 2)) /\
  ([VNum 1] <> [] ->
   getValueAt ∅ (compare w) (rootAfter r) [VNum 1] = None).
Proof.
  apply (one_shot_keys_are_stored_at_the_root Scenario.iterate
           Scenario.iterateAgain Scenario.memoGenerator.1 ∅ createNode
           [VNum 1] [VNum 1] (functionBody Scenario.table 4) (VObj 201)
           (VNum 2)); reflexivity.
Defined.

(** The generator [select] at work: after [m(1)], the call [m(0)], whose key
    path is empty, returns the 2 stored for [m(1)] although [fn(0)] is 0,
    and [m(1)] itself is computed again. *)
Example one_shot_select_example :
  let wr := Scenario.memoGenerator.1 in
  let c1 := callWrapped Scenario.iterate Scenario.iterateAgain wr [VNum 1]
              Scenario.memoGenerator.2 in
  let c2 := callWrapped Scenario.iterate Scenario.iterateAgain wr [VNum 0]
              c1.2 in
  let c3 := callWrapped Scenario.iterate Scenario.iterateAgain wr [VNum 1]
              c1.2 in
  keyPath Scenario.iterate wr [VNum 1] = Returns [VNum 1] /\
  keyPath Scenario.iterate wr [VNum 0] = Returns [] /\
  returned c1.1 = Returns (VNum 2) /\
  rootOf wr c1.2 = {| cache := []; value := Direct (VNum 2) |} /\
  fn wr [VNum 0] = Returns (VNum 0) /\
  returned c2.1 = Returns (VNum 2) /\ fnCalls c2.1 = [] /\
  fnCalls c3.1 = [[VNum 1]].
Proof. vm_compute. repeat split. Qed.
